(** * traefik-fed: the aggregation pipeline, embedded and verified

    A shallow embedding of the Go packages [internal/traefik] (API client
    and router filter), [internal/config], [internal/aggregator] and of
    [runAggregation] in [cmd/traefik-fed/main.go], followed by the
    properties the specification states about them.

    Conventions of the embedding:
    - a Go [string] is a [string] (a sequence of bytes);
    - a slice is a [list]; the nil slice and the empty slice are both [[]]
      (the code only ever asks for their [len]);
    - a pointer to a struct that is only read is an [option] ([nil] is
      [None]); reading a field through the nil pointer is a run-time panic;
    - a Go [map[string]*T] is a [gmap string T];
    - a function that mutates the map it is handed takes the configuration
      and returns the updated one;
    - [(T, error)] results are sums [T + error];
    - a run-time panic is the [None] of an [option] around the result;
    - structured logging is left out: no value the code computes depends
      on it. *)

From Stdlib Require Import Ascii.
From stdpp Require Import gmap strings list fin_maps pretty.

Local Open Scope Z_scope.

(** ** Go's [strings] package, as far as the program uses it *)

Module GoStrings.

(** [strings.HasPrefix(s, prefix)]. *)
Definition HasPrefix (s prefix : string) : bool := String.prefix prefix s.

(** [strings.Index(s, substr)]: the byte index of the first instance of
    [substr] in [s], or [-1]. *)
Fixpoint Index (s substr : string) : Z :=
  if HasPrefix s substr then 0
  else match s with
       | EmptyString => -1
       | String _ s' =>
           let i := Index s' substr in
           if bool_decide (i = -1) then -1 else i + 1
       end.

(** The slice expression [s[:hi]]. *)
Definition slice_to (s : string) (hi : Z) : string :=
  String.substring 0 (Z.to_nat hi) s.

(** The slice expression [s[lo:]]. *)
Definition slice_from (s : string) (lo : Z) : string :=
  String.substring (Z.to_nat lo) (String.length s - Z.to_nat lo) s.

Definition len (s : string) : Z := Z.of_nat (String.length s).

(** [strings.HasSuffix(s, suffix)]. *)
Definition HasSuffix (s suffix : string) : bool :=
  bool_decide (len suffix ≤ len s) &&
  bool_decide (slice_from s (len s - len suffix) = suffix).

(** [strings.TrimSuffix(s, suffix)]. *)
Definition TrimSuffix (s suffix : string) : string :=
  if HasSuffix s suffix then slice_to s (len s - len suffix) else s.

(** [strings.Contains(s, substr)]. *)
Definition Contains (s substr : string) : bool := bool_decide (0 ≤ Index s substr).

End GoStrings.

(** ** Go's [time] package, as far as the program uses it *)

Module GoTime.

(** [time.NewTicker(d)], of which the program uses that it returns: it
    panics ([None]) when [d] is not positive. *)
Definition NewTicker (d : Z) : option Z :=
  if bool_decide (d ≤ 0) then None else Some d.

End GoTime.

(** ** Errors *)

(** Go [error] values.  The program never inspects an error, it only wraps
    and logs them; the three shapes are the ones it builds. *)
Inductive error : Type :=
| opaqueError (msg : string)
    (* produced by net/http, io or encoding/json *)
| statusError (code : Z) (body : string)
    (* fmt.Errorf("API returned status %d: %s", ...) *)
| wrapError (msg : string) (cause : error).
    (* fmt.Errorf(msg + ": %w", cause) *)

(** ** The Traefik dynamic-configuration types *)

Module dynamic.

(** Modelled from the spec: [dynamic.RouterTLSConfig] is declared in the
    Traefik library, not under src/.  The spec calls it a structured TLS
    reference and names its [certResolver]; the program only ever copies
    the pointer. *)
Record RouterTLSConfig : Type := { CertResolver : string }.

(** Modelled from the spec: [dynamic.Router], declared in the Traefik
    library; the fields are those of the spec's RouterDecl, which are
    the ones the aggregator fills in. *)
Record Router : Type := {
  EntryPoints : list string;
  Middlewares : list string;
  Service : string;
  Rule : string;
  TLS : option RouterTLSConfig
}.

(** Modelled from the spec: [dynamic.Server], [dynamic.ServersLoadBalancer]
    and [dynamic.Service], declared in the Traefik library: a service is
    a load balancer over an ordered sequence of target URLs.  The
    struct [Service] is [Service_t] here, [Service] being a field of
    [Router]. *)
Record Server : Type := { URL : string }.
Record ServersLoadBalancer : Type := { Servers : list Server }.
Record Service_t : Type := { LoadBalancer : option ServersLoadBalancer }.

(** Modelled from the spec: [dynamic.HTTPConfiguration], declared in the
    Traefik library: the spec's UnifiedConfiguration. *)
Record HTTPConfiguration : Type := {
  Routers : gmap string Router;
  Services : gmap string Service_t
}.

#[global] Instance RouterTLSConfig_eq_dec : EqDecision RouterTLSConfig.
Proof. solve_decision. Defined.
#[global] Instance Router_eq_dec : EqDecision Router.
Proof. solve_decision. Defined.
#[global] Instance Server_eq_dec : EqDecision Server.
Proof. solve_decision. Defined.
#[global] Instance ServersLoadBalancer_eq_dec : EqDecision ServersLoadBalancer.
Proof. solve_decision. Defined.
#[global] Instance Service_eq_dec : EqDecision Service_t.
Proof. solve_decision. Defined.

End dynamic.

(** ** Package [internal/traefik]: the API client and the router filter *)

Module traefik.

(** The body of an HTTP response as [io.ReadAll] returns it: the bytes
    read and the read error, if any. *)
Record Response : Type := {
  StatusCode : Z;
  Body : string;
  BodyErr : option error
}.

(** The struct [Observability] is [Observability_t] here, [Observability]
    being a field of [RouterInfo]. *)
Record Observability_t : Type := {
  AccessLogs : bool;
  Metrics : bool;
  Tracing : bool;
  TraceVerbosity : string
}.

Record RouterInfo : Type := {
  EntryPoints : list string;
  Middlewares : list string;
  Service : string;
  Rule : string;
  RuleSyntax : string;
  Priority : Z;
  Observability : option Observability_t;
  Status : string;
  Using : list string;
  Name : string;
  Provider : string;
  TLS : option dynamic.RouterTLSConfig
}.

(** What lies outside the program: the answer of the network to a GET
    on a URL, and the decoding [json.Unmarshal] makes of a body into a
    [[]*RouterInfo].  A [null] among the elements of the JSON array
    decodes, without error, to the nil pointer. *)
Record Env : Type := {
  httpGet : string → Response + error;
  jsonUnmarshal : string → list (option RouterInfo) + error
}.

Definition Second : Z := 1000000000.

Record httpClient_t : Type := { Timeout : Z }.

Record Client : Type := {
  httpClient : httpClient_t;
  baseURL : string
}.

Definition NewClient (baseURL : string) : Client :=
  {| httpClient := {| Timeout := 10 * Second |}; baseURL := baseURL |}.

Definition StatusOK : Z := 200.

(** [GetRouters], the method of [Client]. *)
Definition GetRouters (env : Env) (c : Client) : list (option RouterInfo) + error :=
  let url := baseURL c +:+ "/http/routers" in
  match httpGet env url with
  | inr err => inr (wrapError "failed to fetch routers" err)
  | inl resp =>
      if bool_decide (StatusCode resp ≠ StatusOK) then
        inr (statusError (StatusCode resp) (Body resp))
      else
        match BodyErr resp with
        | Some err => inr (wrapError "failed to read response body" err)
        | None =>
            match jsonUnmarshal env (Body resp) with
            | inr err => inr (wrapError "failed to parse routers" err)
            | inl routers => inl routers
            end
        end
  end.

(** The [range] loop of [FilterRouters], [filtered] being the slice built
    so far: the loop appends each router that none of the three tests
    skips.  The first test reads [router.Provider]: on a nil router it
    panics ([None]). *)
Fixpoint FilterRouters_range (routers : list (option RouterInfo))
    (provider status : string) (filtered : list (option RouterInfo))
  : option (list (option RouterInfo)) :=
  match routers with
  | [] => Some filtered
  | None :: _ => None
  | Some router :: routers =>
      if bool_decide (Provider router = "internal")
      then FilterRouters_range routers provider status filtered
      else if bool_decide (provider ≠ "") && bool_decide (Provider router ≠ provider)
      then FilterRouters_range routers provider status filtered
      else if bool_decide (status ≠ "") && bool_decide (Status router ≠ status)
      then FilterRouters_range routers provider status filtered
      else FilterRouters_range routers provider status (filtered ++ [Some router])
  end.

(** [FilterRouters]; [None] is the panic of its loop. *)
Definition FilterRouters (routers : list (option RouterInfo)) (provider status : string)
  : option (list (option RouterInfo)) :=
  FilterRouters_range routers provider status [].

End traefik.

(** ** Package [internal/config] *)

Module config.

Record Upstream : Type := {
  Name : string;
  AdminURL : string;
  ServerURL : string
}.

Record RouterSelector : Type := {
  Provider : string;
  Status : string
}.

Record RouterDefaults : Type := {
  EntryPoints : list string;
  Middlewares : list string;
  TLS : option dynamic.RouterTLSConfig
}.

Record RouterConfig : Type := {
  Selector : RouterSelector;
  Defaults : RouterDefaults
}.

(** [HTTPOutput] and [FileOutput] both have fields [Enabled] and [Path];
    the fields carry the struct's name here.  A [time.Duration] is its
    count of nanoseconds. *)
Record HTTPOutput : Type := {
  HTTP_Enabled : bool;
  HTTP_Port : Z;
  HTTP_Path : string
}.

Record FileOutput : Type := {
  File_Enabled : bool;
  File_Path : string;
  File_Interval : Z
}.

Record OutputConfig : Type := {
  HTTP : HTTPOutput;
  File : FileOutput
}.

Record ServerConfig : Type := { PollInterval : Z }.

Record Config : Type := {
  Upstreams : list Upstream;
  Routers : RouterConfig;
  Output : OutputConfig;
  Server : ServerConfig
}.

(** [Load].  Reading the file and decoding its YAML are the operating
    system's and the YAML library's: [readFile] and [yamlUnmarshal]
    stand for them.  What [Load] itself does is fill in the defaults. *)
Definition Load (readFile : string → string + error)
    (yamlUnmarshal : string → Config + error) (path : string)
  : Config + error :=
  match readFile path with
  | inr err => inr (wrapError "failed to read config file" err)
  | inl data =>
      match yamlUnmarshal data with
      | inr err => inr (wrapError "failed to parse config file" err)
      | inl cfg =>
          let pollInterval :=
            if bool_decide (PollInterval (Server cfg) = 0)
            then 10 * traefik.Second else PollInterval (Server cfg) in
          let httpPath :=
            if bool_decide (HTTP_Path (HTTP (Output cfg)) = "")
            then "/config" else HTTP_Path (HTTP (Output cfg)) in
          let fileInterval :=
            if bool_decide (File_Interval (File (Output cfg)) = 0)
            then 30 * traefik.Second else File_Interval (File (Output cfg)) in
          let status :=
            if bool_decide (Status (Selector (Routers cfg)) = "")
            then "enabled" else Status (Selector (Routers cfg)) in
          inl {| Upstreams := Upstreams cfg;
                 Routers :=
                   {| Selector :=
                        {| Provider := Provider (Selector (Routers cfg));
                           Status := status |};
                      Defaults := Defaults (Routers cfg) |};
                 Output :=
                   {| HTTP :=
                        {| HTTP_Enabled := HTTP_Enabled (HTTP (Output cfg));
                           HTTP_Port := HTTP_Port (HTTP (Output cfg));
                           HTTP_Path := httpPath |};
                      File :=
                        {| File_Enabled := File_Enabled (File (Output cfg));
                           File_Path := File_Path (File (Output cfg));
                           File_Interval := fileInterval |} |};
                 Server := {| PollInterval := pollInterval |} |}
      end
  end.

(** The [range] loop of [Validate] over the upstreams, from index [i] on.
    An error [fmt.Errorf] makes of a message alone is the [opaqueError]
    of that message; [%d] prints the index in decimal. *)
Fixpoint Validate_range (i : Z) (upstreams : list Upstream) : option error :=
  match upstreams with
  | [] => None
  | upstream :: upstreams =>
      if bool_decide (Name upstream = "") then
        Some (opaqueError ("upstream " +:+ pretty i +:+ ": name is required"))
      else if bool_decide (AdminURL upstream = "") then
        Some (opaqueError ("upstream " +:+ Name upstream +:+ ": admin_url is required"))
      else if bool_decide (ServerURL upstream = "") then
        Some (opaqueError ("upstream " +:+ Name upstream +:+ ": server_url is required"))
      else Validate_range (i + 1) upstreams
  end.

(** [Validate]; [None] is the nil error. *)
Definition Validate (c : Config) : option error :=
  if bool_decide (length (Upstreams c) = 0%nat) then
    Some (opaqueError "at least one upstream must be configured")
  else
    match Validate_range 0 (Upstreams c) with
    | Some err => Some err
    | None =>
        if negb (HTTP_Enabled (HTTP (Output c))) && negb (File_Enabled (File (Output c)))
        then Some (opaqueError "at least one output method (HTTP or File) must be enabled")
        else if HTTP_Enabled (HTTP (Output c)) && bool_decide (HTTP_Port (HTTP (Output c)) ≤ 0)
        then Some (opaqueError "HTTP output port must be specified")
        else if File_Enabled (File (Output c)) && bool_decide (File_Path (File (Output c)) = "")
        then Some (opaqueError "file output path must be specified")
        else None
    end.

End config.

(** ** Package [internal/aggregator] *)

Module aggregator.

(** The source tree holds two texts of [aggregator.go]:
    src/internal/aggregator/aggregator.go, and the second document of
    src/internal/config/config.go (from its line 135 on).  They agree
    line by line except where the loop body of [aggregateUpstream] fills
    [EntryPoints], [Middlewares] and [TLS] of [newRouter]: the first
    copies the three from the remote router ([CopyUpstream]), the second
    applies the configured defaults ([ApplyDefaults]).  Every definition
    of the package that depends on that passage takes the revision as
    its first argument. *)
Inductive revision : Type := CopyUpstream | ApplyDefaults.

Record Aggregator : Type := {
  config : config.Config;
  clients : gmap string traefik.Client
}.

(** [New]. *)
Definition New (cfg : config.Config) : Aggregator :=
  let clients :=
    foldl (fun clients upstream =>
             let apiURL :=
               GoStrings.TrimSuffix (config.AdminURL upstream) "/" +:+ "/api" in
             <[config.Name upstream := traefik.NewClient apiURL]> clients)
          ∅ (config.Upstreams cfg) in
  {| config := cfg; clients := clients |}.

(** [baseName], as the loop body of [aggregateUpstream] computes it:
    the router name cut at the first "@". *)
Definition baseName (router : traefik.RouterInfo) : string :=
  let baseName := traefik.Name router in
  let idx := GoStrings.Index baseName "@" in
  if bool_decide (idx ≠ -1) then GoStrings.slice_to baseName idx else baseName.

(** [routerName := fmt.Sprintf("%s-%s", upstream.Name, baseName)]. *)
Definition routerName (upstream : config.Upstream) (router : traefik.RouterInfo)
  : string :=
  config.Name upstream +:+ "-" +:+ baseName router.

(** [serviceName := fmt.Sprintf("%s-traefik", upstream.Name)]. *)
Definition serviceName (upstream : config.Upstream) : string :=
  config.Name upstream +:+ "-traefik".

(** [newRouter], in either revision. *)
Definition newRouter (rev : revision) (a : Aggregator)
    (router : traefik.RouterInfo) (serviceName : string) : dynamic.Router :=
  match rev with
  | CopyUpstream =>
      {| dynamic.Rule := traefik.Rule router;
         dynamic.Service := serviceName;
         dynamic.EntryPoints := traefik.EntryPoints router;
         dynamic.Middlewares := traefik.Middlewares router;
         dynamic.TLS :=
           match traefik.TLS router with
           | Some tls => Some tls
           | None => None
           end |}
  | ApplyDefaults =>
      let defaults := config.Defaults (config.Routers (config a)) in
      {| dynamic.Rule := traefik.Rule router;
         dynamic.Service := serviceName;
         dynamic.EntryPoints :=
           if bool_decide (0 < length (config.EntryPoints defaults))%nat
           then config.EntryPoints defaults else [];
         dynamic.Middlewares :=
           if bool_decide (0 < length (config.Middlewares defaults))%nat
           then config.Middlewares defaults else [];
         dynamic.TLS :=
           match config.TLS defaults with
           | Some tls => Some tls
           | None =>
               match traefik.TLS router with
               | Some tls => Some tls
               | None => None
               end
           end |}
  end.

(** The service [aggregateUpstream] creates for an upstream. *)
Definition newService (upstream : config.Upstream) : dynamic.Service_t :=
  {| dynamic.LoadBalancer :=
       Some {| dynamic.Servers :=
                 [ {| dynamic.URL := config.ServerURL upstream |} ] |} |}.

(** The loop of [aggregateUpstream] over the filtered routers.  Its body
    reads [router.Name]: on a nil router it panics ([None]). *)
Fixpoint aggregateUpstream_range (rev : revision) (a : Aggregator)
    (upstream : config.Upstream) (serviceName : string)
    (filteredRouters : list (option traefik.RouterInfo))
    (httpConfig : dynamic.HTTPConfiguration) : option dynamic.HTTPConfiguration :=
  match filteredRouters with
  | [] => Some httpConfig
  | None :: _ => None
  | Some router :: filteredRouters =>
      aggregateUpstream_range rev a upstream serviceName filteredRouters
        {| dynamic.Routers :=
             <[routerName upstream router := newRouter rev a router serviceName]>
               (dynamic.Routers httpConfig);
           dynamic.Services := dynamic.Services httpConfig |}
  end.

(** [aggregateUpstream].  [None] is a run-time panic: that of calling
    [GetRouters] on the nil client a missing map entry yields, or that of
    [FilterRouters] on a nil router; otherwise the result is the
    configuration as the call leaves it, with the error the call returns. *)
Definition aggregateUpstream (rev : revision) (env : traefik.Env)
    (a : Aggregator) (upstream : config.Upstream)
    (httpConfig : dynamic.HTTPConfiguration)
  : option (dynamic.HTTPConfiguration * option error) :=
  match clients a !! config.Name upstream with
  | None => None
  | Some client =>
      match traefik.GetRouters env client with
      | inr err => Some (httpConfig, Some (wrapError "failed to fetch routers" err))
      | inl routers =>
          match traefik.FilterRouters routers
                  (config.Provider (config.Selector (config.Routers (config a))))
                  (config.Status (config.Selector (config.Routers (config a)))) with
          | None => None
          | Some filteredRouters =>
              if bool_decide (0 < length filteredRouters)%nat then
                let serviceName := serviceName upstream in
                let httpConfig :=
                  {| dynamic.Routers := dynamic.Routers httpConfig;
                     dynamic.Services :=
                       <[serviceName := newService upstream]>
                         (dynamic.Services httpConfig) |} in
                match aggregateUpstream_range rev a upstream serviceName
                        filteredRouters httpConfig with
                | None => None
                | Some httpConfig => Some (httpConfig, None)
                end
              else Some (httpConfig, None)
          end
      end
  end.

(** The [range] loop of [Aggregate]: an upstream whose aggregation
    returns an error is logged and the loop continues. *)
Fixpoint Aggregate_range (rev : revision) (env : traefik.Env) (a : Aggregator)
    (upstreams : list config.Upstream) (httpConfig : dynamic.HTTPConfiguration)
  : option dynamic.HTTPConfiguration :=
  match upstreams with
  | [] => Some httpConfig
  | upstream :: upstreams =>
      match aggregateUpstream rev env a upstream httpConfig with
      | None => None
      | Some (httpConfig, Some err) => Aggregate_range rev env a upstreams httpConfig
      | Some (httpConfig, None) => Aggregate_range rev env a upstreams httpConfig
      end
  end.

(** [Aggregate]. *)
Definition Aggregate (rev : revision) (env : traefik.Env) (a : Aggregator)
  : option (dynamic.HTTPConfiguration * option error) :=
  let httpConfig := {| dynamic.Routers := ∅; dynamic.Services := ∅ |} in
  match Aggregate_range rev env a (config.Upstreams (config a)) httpConfig with
  | None => None
  | Some httpConfig => Some (httpConfig, None)
  end.

End aggregator.

(** ** Buffered channels *)

Module channel.

(** A buffered channel [make(chan A, cap)]: its capacity and the values
    sent and not yet received, oldest first. *)
Record chan (A : Type) : Type := { cap : nat; buf : list A }.
Arguments cap {A} _.
Arguments buf {A} _.

Definition make {A : Type} (cap : nat) : chan A := {| cap := cap; buf := [] |}.

(** The send [ch <- v]: it proceeds when the buffer has room, and
    otherwise blocks ([None]). *)
Definition send {A : Type} (ch : chan A) (v : A) : option (chan A) :=
  if bool_decide (length (buf ch) < cap ch)%nat
  then Some {| cap := cap ch; buf := buf ch ++ [v] |}
  else None.

(** The receive [<-ch]: it takes the oldest value, and blocks ([None])
    on an empty buffer. *)
Definition recv {A : Type} (ch : chan A) : option (A * chan A) :=
  match buf ch with
  | [] => None
  | v :: rest => Some (v, {| cap := cap ch; buf := rest |})
  end.

End channel.

(** ** Package [internal/output]: the cached configuration of the HTTP server *)

Module output.

Record HTTPServer : Type := {
  port : Z;
  path : string;
  config : dynamic.HTTPConfiguration
}.

(** [NewHTTPServer]: the cache starts as the zero [HTTPConfiguration]. *)
Definition NewHTTPServer (port : Z) (path : string) : HTTPServer :=
  {| port := port; path := path;
     config := {| dynamic.Routers := ∅; dynamic.Services := ∅ |} |}.

(** [UpdateConfig], under the server's lock. *)
Definition UpdateConfig (s : HTTPServer) (config : dynamic.HTTPConfiguration)
  : HTTPServer :=
  {| port := port s; path := path s; config := config |}.

(** What [handleConfig] reads of a request: [r.Header.Get("Accept")] and
    [r.URL.Query().Get("format")]. *)
Record Request : Type := { Accept : string; format : string }.

(** The call [handleConfig] ends with; the encoders behind the two are
    the JSON and YAML libraries'. *)
Inductive served : Type :=
| serveJSON (config : dynamic.HTTPConfiguration)
| serveYAML (config : dynamic.HTTPConfiguration).

(** [handleConfig]: the cached configuration, read under the lock, in the
    format the request asks for. *)
Definition handleConfig (s : HTTPServer) (r : Request) : served :=
  let config := config s in
  let acceptHeader := Accept r in
  if bool_decide (acceptHeader = "application/json") || bool_decide (format r = "json")
  then serveJSON config
  else serveYAML config.

(** [FileWriter]; its fields [path] and [interval] carry the struct's
    name here, [path] being a field of [HTTPServer] too. *)
Record FileWriter : Type := {
  writer_path : string;
  writer_interval : Z
}.

Definition NewFileWriter (path : string) (interval : Z) : FileWriter :=
  {| writer_path := path; writer_interval := interval |}.

(** The calls [writeConfig] makes to the operating system and to the YAML
    encoder, in order. *)
Inductive call : Type :=
| MkdirAll | Create | Encode | EncoderClose | FileClose | Rename.

(** What lies outside the program in one run of [writeConfig]: which of
    its calls fail, with what error, and what a write that does not
    complete leaves in the temporary file. *)
Record Outcome : Type := {
  fails : call → option error;
  leftover : string
}.

(** [writeConfig], on the contents of the regular files by path
    (directories are not tracked).  [yamlEncode] is the YAML document the
    encoder makes of the configuration under the key "http". *)
Definition writeConfig (yamlEncode : dynamic.HTTPConfiguration → string)
    (w : FileWriter) (o : Outcome) (config : dynamic.HTTPConfiguration)
    (files : gmap string string) : gmap string string * option error :=
  match fails o MkdirAll with
  | Some err => (files, Some (wrapError "failed to create directory" err))
  | None =>
      let tmpPath := writer_path w +:+ ".tmp" in
      match fails o Create with
      | Some err => (files, Some (wrapError "failed to create temp file" err))
      | None =>
          match fails o Encode with
          | Some err =>
              (<[tmpPath := leftover o]> files,
               Some (wrapError "failed to encode YAML" err))
          | None =>
              match fails o EncoderClose with
              | Some err =>
                  (<[tmpPath := leftover o]> files,
                   Some (wrapError "failed to close encoder" err))
              | None =>
                  match fails o FileClose with
                  | Some err =>
                      (<[tmpPath := leftover o]> files,
                       Some (wrapError "failed to close file" err))
                  | None =>
                      match fails o Rename with
                      | Some err =>
                          (<[tmpPath := yamlEncode config]> files,
                           Some (wrapError "failed to rename file" err))
                      | None =>
                          (<[writer_path w := yamlEncode config]> (delete tmpPath files),
                           None)
                      end
                  end
              end
          end
      end
  end.

(** The case a [select] of [Start] takes: a configuration received from
    the channel, or a tick of the ticker. *)
Inductive event : Type :=
| Received (config : dynamic.HTTPConfiguration)
| Tick.

(** The state of [Start]: its variable [currentConfig], and the files. *)
Record writerState : Type := {
  currentConfig : option dynamic.HTTPConfiguration;
  files : gmap string string
}.

(** One turn of the loop of [Start]; a write that fails is logged, and
    the loop goes on. *)
Definition Start_case (yamlEncode : dynamic.HTTPConfiguration → string)
    (w : FileWriter) (st : writerState) (e : event * Outcome) : writerState :=
  match e.1 with
  | Received config =>
      {| currentConfig := Some config;
         files := (writeConfig yamlEncode w e.2 config (files st)).1 |}
  | Tick =>
      match currentConfig st with
      | Some config =>
          {| currentConfig := Some config;
             files := (writeConfig yamlEncode w e.2 config (files st)).1 |}
      | None => st
      end
  end.

(** [Start], which never returns: its state after the first [select]
    ([initial] is the configuration received within the first second, if
    any) and the cases of the loop taken so far.  The ticker [Start]
    creates before its first [select] is that of [system.step], below,
    which has the panic of its creation. *)
Definition Start (yamlEncode : dynamic.HTTPConfiguration → string)
    (w : FileWriter) (initial : option (dynamic.HTTPConfiguration * Outcome))
    (events : list (event * Outcome)) (files0 : gmap string string) : writerState :=
  let st :=
    match initial with
    | Some (config, o) =>
        {| currentConfig := Some config;
           files := (writeConfig yamlEncode w o config files0).1 |}
    | None => {| currentConfig := None; files := files0 |}
    end in
  foldl (Start_case yamlEncode w) st events.

End output.

(** ** [cmd/traefik-fed]: one aggregation and its delivery to the sinks *)

Module main.

(** The two sinks [main] hands to [runAggregation]; each is nil ([None])
    when its output is disabled. *)
Record Sinks : Type := {
  httpServer : option output.HTTPServer;
  fileConfigChan : option (channel.chan dynamic.HTTPConfiguration)
}.

(** The [select] of [runAggregation]: the send when it can proceed,
    the [default] case when it cannot. *)
Definition select_send_default {A : Type} (ch : channel.chan A) (v : A)
  : channel.chan A :=
  match channel.send ch v with
  | Some ch' => ch'
  | None => ch (* Channel full, skip this update *)
  end.

(** [runAggregation]; [None] is a panic of [Aggregate]. *)
Definition runAggregation (rev : aggregator.revision) (env : traefik.Env)
    (agg : aggregator.Aggregator) (s : Sinks) : option Sinks :=
  match aggregator.Aggregate rev env agg with
  | None => None
  | Some (_, Some err) => Some s
  | Some (httpConfig, None) =>
      let httpServer :=
        match httpServer s with
        | Some srv => Some (output.UpdateConfig srv httpConfig)
        | None => None
        end in
      let fileConfigChan :=
        match fileConfigChan s with
        | Some ch => Some (select_send_default ch httpConfig)
        | None => None
        end in
      Some {| httpServer := httpServer; fileConfigChan := fileConfigChan |}
  end.

(** The sinks [main] creates from the configuration. *)
Definition setup (cfg : config.Config) : Sinks :=
  {| httpServer :=
       if config.HTTP_Enabled (config.HTTP (config.Output cfg))
       then Some (output.NewHTTPServer
                    (config.HTTP_Port (config.HTTP (config.Output cfg)))
                    (config.HTTP_Path (config.HTTP (config.Output cfg))))
       else None;
     fileConfigChan :=
       if config.File_Enabled (config.File (config.Output cfg))
       then Some (channel.make 1)
       else None |}.

End main.

(** ** The scheduler and the file writer, running side by side *)

Module system.

(** The sinks, which [main] and the file writer share; whether the file
    writer's goroutine has entered [Start] and created its ticker; and the
    state of its [Start]. *)
Record state : Type := {
  sinks : main.Sinks;
  started : bool;
  writer : output.writerState
}.

(** What happens next: [main] runs an aggregation (the initial one, or
    its loop takes a tick) while the network is [env]; or the goroutine of
    the file writer enters [Start]; or the file writer's [select] takes
    the channel or its ticker, the write it then makes meeting the
    outcome [o]. *)
Inductive action : Type :=
| Cycle (env : traefik.Env)
| WriterStart
| Deliver (o : output.Outcome)
| WriterTick (o : output.Outcome).

(** One action; [None] is a panic, which ends the program: that of
    [Aggregate], or that of the ticker [Start] creates first
    ([time.NewTicker(w.interval)]).  An action that cannot happen changes
    nothing: [WriterStart] where [main] started no file writer (the
    channel is nil) or the writer has started already, a [Deliver] or a
    [WriterTick] before the writer has started, a [Deliver] on an empty
    channel. *)
Definition step (rev : aggregator.revision) (agg : aggregator.Aggregator)
    (yamlEncode : dynamic.HTTPConfiguration → string) (w : output.FileWriter)
    (st : state) (a : action) : option state :=
  match a with
  | Cycle env =>
      match main.runAggregation rev env agg (sinks st) with
      | None => None
      | Some s => Some {| sinks := s; started := started st; writer := writer st |}
      end
  | WriterStart =>
      match main.fileConfigChan (sinks st) with
      | Some _ =>
          if started st then Some st
          else
            match GoTime.NewTicker (output.writer_interval w) with
            | None => None
            | Some _ =>
                Some {| sinks := sinks st; started := true; writer := writer st |}
            end
      | None => Some st
      end
  | Deliver o =>
      if started st then
        match main.fileConfigChan (sinks st) with
        | Some ch =>
            match channel.recv ch with
            | Some (config, ch') =>
                Some {| sinks :=
                          {| main.httpServer := main.httpServer (sinks st);
                             main.fileConfigChan := Some ch' |};
                        started := true;
                        writer :=
                          output.Start_case yamlEncode w (writer st)
                            (output.Received config, o) |}
            | None => Some st
            end
        | None => Some st
        end
      else Some st
  | WriterTick o =>
      if started st then
        Some {| sinks := sinks st;
                started := true;
                writer := output.Start_case yamlEncode w (writer st) (output.Tick, o) |}
      else Some st
  end.

(** A sequence of actions. *)
Fixpoint run (rev : aggregator.revision) (agg : aggregator.Aggregator)
    (yamlEncode : dynamic.HTTPConfiguration → string) (w : output.FileWriter)
    (actions : list action) (st : state) : option state :=
  match actions with
  | [] => Some st
  | a :: actions =>
      match step rev agg yamlEncode w st a with
      | None => None
      | Some st => run rev agg yamlEncode w actions st
      end
  end.

(** The state in which [main] enters its polling loop: it has set up the
    sinks and launched their goroutines, and creates its own ticker
    ([time.NewTicker(cfg.Server.PollInterval)]) before the first
    aggregation; [None] is the panic of that ticker. *)
Definition initial (cfg : config.Config) (files0 : gmap string string) : option state :=
  match GoTime.NewTicker (config.PollInterval (config.Server cfg)) with
  | None => None
  | Some _ =>
      Some {| sinks := main.setup cfg;
              started := false;
              writer := {| output.currentConfig := None; output.files := files0 |} |}
  end.

End system.

(** ** Package [internal/version] *)

Module version.

Record Info : Type := {
  Version : string;
  GitCommit : string;
  BuildDate : string;
  GoVersion : string;
  Platform : string
}.

(** [Get].  The package variables [Version], [GitCommit] and [BuildDate],
    which the linker may set, and the runtime's [runtime.Version()],
    [runtime.GOOS] and [runtime.GOARCH] are its arguments. *)
Definition Get (version gitCommit buildDate : string) (goVersion goos goarch : string)
  : Info :=
  {| Version := version;
     GitCommit := gitCommit;
     BuildDate := buildDate;
     GoVersion := goVersion;
     Platform := goos +:+ "/" +:+ goarch |}.

(** [String], the method of [Info]. *)
Definition String (i : Info) : string :=
  "traefik-fed " +:+ Version i +:+ " (" +:+ GitCommit i +:+ ") built on "
    +:+ BuildDate i +:+ " with " +:+ GoVersion i +:+ " for " +:+ Platform i.

End version.

(** ** Decidable equality of the data *)

#[global] Instance error_eq_dec : EqDecision error.
Proof. solve_decision. Defined.
#[global] Instance Observability_eq_dec : EqDecision traefik.Observability_t.
Proof. solve_decision. Defined.
#[global] Instance RouterInfo_eq_dec : EqDecision traefik.RouterInfo.
Proof. solve_decision. Defined.
#[global] Instance Upstream_eq_dec : EqDecision config.Upstream.
Proof. solve_decision. Defined.

(** ** The notions the properties are stated with *)

Module props.

(** The selection rule as the specification words it: not of the
    reserved provider, of the wanted provider when one is given, and of
    the wanted status. *)
Definition selects_as_stated (provider status : string) (r : traefik.RouterInfo)
  : Prop :=
  traefik.Provider r ≠ "internal" ∧
  (provider ≠ "" → traefik.Provider r = provider) ∧
  traefik.Status r = status.

(** The selection rule with the status test applied only when a status
    is given. *)
Definition selects (provider status : string) (r : traefik.RouterInfo) : Prop :=
  traefik.Provider r ≠ "internal" ∧
  (provider ≠ "" → traefik.Provider r = provider) ∧
  (status ≠ "" → traefik.Status r = status).

#[global] Instance selects_as_stated_dec provider status r :
  Decision (selects_as_stated provider status r).
Proof. unfold selects_as_stated. apply _. Defined.

#[global] Instance selects_dec provider status r :
  Decision (selects provider status r).
Proof. unfold selects. apply _. Defined.

(** A name with everything from its first "@" onward removed. *)
Fixpoint before_at (s : string) : string :=
  match s with
  | EmptyString => EmptyString
  | String c s' => if decide (c = "@"%char) then EmptyString else String c (before_at s')
  end.

(** The URL [New] gives the client of an upstream, and the URL
    [GetRouters] then asks. *)
Definition apiURL (upstream : config.Upstream) : string :=
  GoStrings.TrimSuffix (config.AdminURL upstream) "/" +:+ "/api".

Definition routersURL (upstream : config.Upstream) : string :=
  apiURL upstream +:+ "/http/routers".

(** The outcome of the fetch [aggregateUpstream] makes for an upstream:
    [None] when the aggregator has no client under the upstream's name. *)
Definition fetch (env : traefik.Env) (a : aggregator.Aggregator)
    (upstream : config.Upstream)
  : option (list (option traefik.RouterInfo) + error) :=
  traefik.GetRouters env <$> aggregator.clients a !! config.Name upstream.

(** The selected routers of an upstream in one cycle: the fetched
    routers that pass the filter, none when the fetch fails (or the
    filter panics). *)
Definition selected (env : traefik.Env) (a : aggregator.Aggregator)
    (upstream : config.Upstream) : list traefik.RouterInfo :=
  match fetch env a upstream with
  | Some (inl routers) =>
      match traefik.FilterRouters routers
              (config.Provider (config.Selector (config.Routers (aggregator.config a))))
              (config.Status (config.Selector (config.Routers (aggregator.config a)))) with
      | Some filteredRouters => omap id filteredRouters
      | None => []
      end
  | _ => []
  end.

(** An upstream that returns no nil router in this cycle: its fetch fails,
    or gives a list of routers that are all there. *)
Definition nil_free (env : traefik.Env) (a : aggregator.Aggregator)
    (upstream : config.Upstream) : Prop :=
  match fetch env a upstream with
  | Some (inl routers) => None ∉ routers
  | _ => True
  end.

#[global] Instance nil_free_dec env a upstream : Decision (nil_free env a upstream).
Proof. unfold nil_free. destruct (fetch env a upstream) as [[routers|err]|]; apply _. Defined.

(** The writes of one cycle to the [Routers] map, in the order the
    loops make them. *)
Definition routerEntries (rev : aggregator.revision) (env : traefik.Env)
    (a : aggregator.Aggregator) (upstreams : list config.Upstream)
  : list (string * dynamic.Router) :=
  upstream ← upstreams;
  (fun router =>
     (aggregator.routerName upstream router,
      aggregator.newRouter rev a router (aggregator.serviceName upstream)))
    <$> selected env a upstream.

(** The writes of one cycle to the [Services] map, in order. *)
Definition serviceEntries (env : traefik.Env) (a : aggregator.Aggregator)
    (upstreams : list config.Upstream) : list (string * dynamic.Service_t) :=
  upstream ← upstreams;
  if bool_decide (0 < length (selected env a upstream))%nat
  then [(aggregator.serviceName upstream, aggregator.newService upstream)]
  else [].

(** The router keys one cycle writes, in order, one per selected router. *)
Definition publishedKeys (env : traefik.Env) (a : aggregator.Aggregator)
    (upstreams : list config.Upstream) : list string :=
  upstream ← upstreams;
  aggregator.routerName upstream <$> selected env a upstream.

(** A configuration with another list of upstreams. *)
Definition with_upstreams (cfg : config.Config) (upstreams : list config.Upstream)
  : config.Config :=
  {| config.Upstreams := upstreams;
     config.Routers := config.Routers cfg;
     config.Output := config.Output cfg;
     config.Server := config.Server cfg |}.

(** The empty configuration [Aggregate] starts from. *)
Definition emptyConfig : dynamic.HTTPConfiguration :=
  {| dynamic.Routers := ∅; dynamic.Services := ∅ |}.

(** The merge defaults of a configuration. *)
Definition defaults (cfg : config.Config) : config.RouterDefaults :=
  config.Defaults (config.Routers cfg).

(** The entry [New] writes to the client map for an upstream. *)
Definition clientEntry (upstream : config.Upstream) : string * traefik.Client :=
  (config.Name upstream, traefik.NewClient (apiURL upstream)).

(** The configuration a cycle produces; [emptyConfig] stands in where the
    cycle panics and produces none. *)
Definition snapshot (rev : aggregator.revision) (env : traefik.Env)
    (cfg : config.Config) : dynamic.HTTPConfiguration :=
  match aggregator.Aggregate rev env (aggregator.New cfg) with
  | Some (httpConfig, _) => httpConfig
  | None => emptyConfig
  end.

(** An upstream with the three fields [Validate] requires. *)
Definition complete (u : config.Upstream) : Prop :=
  config.Name u ≠ "" ∧ config.AdminURL u ≠ "" ∧ config.ServerURL u ≠ "".

#[global] Instance complete_dec u : Decision (complete u).
Proof. unfold complete. apply _. Defined.

(** A configuration with at least one upstream, all complete, at least one
    output enabled, a positive port for an enabled HTTP output and a path
    for an enabled file output. *)
Definition valid (c : config.Config) : Prop :=
  config.Upstreams c ≠ [] ∧
  Forall complete (config.Upstreams c) ∧
  (config.HTTP_Enabled (config.HTTP (config.Output c)) = true ∨
   config.File_Enabled (config.File (config.Output c)) = true) ∧
  (config.HTTP_Enabled (config.HTTP (config.Output c)) = true →
   0 < config.HTTP_Port (config.HTTP (config.Output c))) ∧
  (config.File_Enabled (config.File (config.Output c)) = true →
   config.File_Path (config.File (config.Output c)) ≠ "").

(** A configuration with other merge defaults. *)
Definition with_defaults (cfg : config.Config) (d : config.RouterDefaults)
  : config.Config :=
  {| config.Upstreams := config.Upstreams cfg;
     config.Routers :=
       {| config.Selector := config.Selector (config.Routers cfg);
          config.Defaults := d |};
     config.Output := config.Output cfg;
     config.Server := config.Server cfg |}.

(** An outcome in which no call of [writeConfig] fails. *)
Definition all_succeed (o : output.Outcome) : Prop :=
  ∀ c, output.fails o c = None.

(** The snapshots a sequence of actions has [main] aggregate, in order. *)
Definition snapshots (rev : aggregator.revision) (cfg : config.Config)
    (actions : list system.action) : list dynamic.HTTPConfiguration :=
  omap (fun a => match a with
                 | system.Cycle env => Some (snapshot rev env cfg)
                 | _ => None
                 end) actions.

(** The configurations [Start] has received from the channel: the one of
    its first [select], if any, and those of the loop, in order. *)
Definition received (initial : option (dynamic.HTTPConfiguration * output.Outcome))
    (events : list (output.event * output.Outcome)) : list dynamic.HTTPConfiguration :=
  match initial with Some (config, _) => [config] | None => [] end
  ++ omap (fun e => match e.1 with
                    | output.Received config => Some config
                    | output.Tick => None
                    end) events.

(** A configuration with other intervals: that of the polling loop and
    that of the file writer. *)
Definition with_intervals (cfg : config.Config) (poll interval : Z) : config.Config :=
  {| config.Upstreams := config.Upstreams cfg;
     config.Routers := config.Routers cfg;
     config.Output :=
       {| config.HTTP := config.HTTP (config.Output cfg);
          config.File :=
            {| config.File_Enabled := config.File_Enabled (config.File (config.Output cfg));
               config.File_Path := config.File_Path (config.File (config.Output cfg));
               config.File_Interval := interval |} |};
     config.Server := {| config.PollInterval := poll |} |}.

(** The temporary file of a file writer. *)
Definition tmpPath (w : output.FileWriter) : string := output.writer_path w +:+ ".tmp".

End props.

(** ** A small federation to run the definitions on *)

Module example.

Definition mkRouter (name provider status rule : string)
    (entryPoints : list string) (tls : option dynamic.RouterTLSConfig)
  : traefik.RouterInfo :=
  {| traefik.EntryPoints := entryPoints;
     traefik.Middlewares := [];
     traefik.Service := name;
     traefik.Rule := rule;
     traefik.RuleSyntax := "";
     traefik.Priority := 0;
     traefik.Observability := None;
     traefik.Status := status;
     traefik.Using := entryPoints;
     traefik.Name := name;
     traefik.Provider := provider;
     traefik.TLS := tls |}.

Definition letsencrypt : dynamic.RouterTLSConfig :=
  {| dynamic.CertResolver := "letsencrypt" |}.

Definition internal_ca : dynamic.RouterTLSConfig :=
  {| dynamic.CertResolver := "internal-ca" |}.

Definition webapp : traefik.RouterInfo :=
  mkRouter "webapp@docker" "docker" "enabled" "Host(`app.example.com`)" ["web"] None.

Definition api : traefik.RouterInfo :=
  mkRouter "api@docker" "docker" "enabled" "Host(`api.example.com`)" ["web"] None.

Definition memos : traefik.RouterInfo :=
  mkRouter "memos@docker" "docker" "enabled" "Host(`memos.example.com`)" ["web"]
    (Some internal_ca).

Definition dashboard : traefik.RouterInfo :=
  mkRouter "dashboard@internal" "internal" "enabled" "PathPrefix(`/`)" ["traefik"] None.

Definition stopped : traefik.RouterInfo :=
  mkRouter "old@docker" "docker" "disabled" "Host(`old.example.com`)" ["web"] None.

Definition web_docker : traefik.RouterInfo :=
  mkRouter "web@docker" "docker" "enabled" "Host(`a.example.com`)" ["web"]
    (Some letsencrypt).

Definition web_file : traefik.RouterInfo :=
  mkRouter "web@file" "file" "enabled" "Host(`b.example.com`)" ["web"] None.

Definition b_c : traefik.RouterInfo :=
  mkRouter "b-c" "docker" "enabled" "Host(`bc.example.com`)" ["web"] None.

Definition c : traefik.RouterInfo :=
  mkRouter "c" "docker" "enabled" "Host(`c.example.com`)" ["web"] None.

Definition host1 : config.Upstream :=
  {| config.Name := "host1";
     config.AdminURL := "http://10.0.0.1:8080/";
     config.ServerURL := "http://10.0.0.1:80" |}.

Definition host2 : config.Upstream :=
  {| config.Name := "host2";
     config.AdminURL := "http://10.0.0.2:8080";
     config.ServerURL := "http://10.0.0.2:80" |}.

Definition upstream_a : config.Upstream :=
  {| config.Name := "a";
     config.AdminURL := "http://a:8080";
     config.ServerURL := "http://a:80" |}.

Definition upstream_a_b : config.Upstream :=
  {| config.Name := "a-b";
     config.AdminURL := "http://a-b:8080";
     config.ServerURL := "http://a-b:80" |}.

Definition cfg (upstreams : list config.Upstream) (provider status : string)
    (defaults : config.RouterDefaults) : config.Config :=
  {| config.Upstreams := upstreams;
     config.Routers :=
       {| config.Selector :=
            {| config.Provider := provider; config.Status := status |};
          config.Defaults := defaults |};
     config.Output :=
       {| config.HTTP :=
            {| config.HTTP_Enabled := true; config.HTTP_Port := 8080;
               config.HTTP_Path := "/config" |};
          config.File :=
            {| config.File_Enabled := true;
               config.File_Path := "/etc/traefik/dynamic/federation.yml";
               config.File_Interval := 30 * traefik.Second |} |};
     config.Server := {| config.PollInterval := 10 * traefik.Second |} |}.

Definition websecure : config.RouterDefaults :=
  {| config.EntryPoints := ["websecure"];
     config.Middlewares := [];
     config.TLS := Some letsencrypt |}.

Definition noDefaults : config.RouterDefaults :=
  {| config.EntryPoints := []; config.Middlewares := []; config.TLS := None |}.

(** A network in which the URLs listed in [answers] answer 200 with a
    body that decodes to the router list given for them, and every other
    connection is refused; a body is the URL it was fetched from. *)
Definition network (answers : list (string * list (option traefik.RouterInfo)))
  : traefik.Env :=
  {| traefik.httpGet := fun url =>
       match (list_to_map answers : gmap string (list (option traefik.RouterInfo)))
               !! url with
       | Some _ => inl {| traefik.StatusCode := 200; traefik.Body := url;
                          traefik.BodyErr := None |}
       | None => inr (opaqueError "connection refused")
       end;
     traefik.jsonUnmarshal := fun body =>
       match (list_to_map answers : gmap string (list (option traefik.RouterInfo)))
               !! body with
       | Some routers => inl routers
       | None => inr (opaqueError "unexpected end of JSON input")
       end |}.

Definition both_up : traefik.Env :=
  network [("http://10.0.0.1:8080/api/http/routers",
            [Some webapp; Some dashboard; Some memos]);
           ("http://10.0.0.2:8080/api/http/routers", [Some api])].

Definition host2_down : traefik.Env :=
  network [("http://10.0.0.1:8080/api/http/routers",
            [Some webapp; Some dashboard; Some memos])].

(** host1 answers as in [both_up]; host2 answers 200 with the body
    [[null]], which decodes to one nil router. *)
Definition host2_null : traefik.Env :=
  network [("http://10.0.0.1:8080/api/http/routers",
            [Some webapp; Some dashboard; Some memos]);
           ("http://10.0.0.2:8080/api/http/routers", [None])].

(** [both_up], with a third host, which no upstream names, answering 503. *)
Definition both_up_third_busy : traefik.Env :=
  {| traefik.httpGet := fun url =>
       if bool_decide (url = "http://10.0.0.3:8080/api/http/routers")
       then inl {| traefik.StatusCode := 503; traefik.Body := "busy";
                   traefik.BodyErr := None |}
       else traefik.httpGet both_up url;
     traefik.jsonUnmarshal := traefik.jsonUnmarshal both_up |}.

(** A router that has a middleware at its upstream, and host1 serving it. *)
Definition guarded : traefik.RouterInfo :=
  {| traefik.EntryPoints := ["web"];
     traefik.Middlewares := ["auth@docker"];
     traefik.Service := "wiki";
     traefik.Rule := "Host(`wiki.example.com`)";
     traefik.RuleSyntax := "";
     traefik.Priority := 0;
     traefik.Observability := None;
     traefik.Status := "enabled";
     traefik.Using := ["web"];
     traefik.Name := "wiki@docker";
     traefik.Provider := "docker";
     traefik.TLS := None |}.

Definition host1_guarded : traefik.Env :=
  network [("http://10.0.0.1:8080/api/http/routers", [Some guarded])].

Definition twins : traefik.Env :=
  network [("http://10.0.0.1:8080/api/http/routers", [Some web_docker; Some web_file])].

Definition hyphens : traefik.Env :=
  network [("http://a:8080/api/http/routers", [Some b_c]);
           ("http://a-b:8080/api/http/routers", [Some c])].

Definition federation : config.Config := cfg [host1; host2] "docker" "enabled" websecure.

Definition plain : config.Config := cfg [host1; host2] "docker" "enabled" noDefaults.

(** The sinks as [main] sets them up, both outputs enabled. *)
Definition sinks : main.Sinks :=
  {| main.httpServer := Some (output.NewHTTPServer 8080 "/config");
     main.fileConfigChan := Some (channel.make 1) |}.

(** The sinks after a first cycle run while host2 was down, which the file
    writer has not yet taken from the channel. *)
Definition sinks_pending : main.Sinks :=
  {| main.httpServer :=
       Some (output.UpdateConfig (output.NewHTTPServer 8080 "/config")
               (props.snapshot aggregator.ApplyDefaults host2_down federation));
     main.fileConfigChan :=
       Some {| channel.cap := 1;
               channel.buf :=
                 [props.snapshot aggregator.ApplyDefaults host2_down federation] |} |}.

(** A configuration file that sets only the upstreams and the HTTP output:
    what the YAML decoder makes of it has every other setting zero. *)
Definition bare : config.Config :=
  {| config.Upstreams := [host1; host2];
     config.Routers :=
       {| config.Selector := {| config.Provider := ""; config.Status := "" |};
          config.Defaults := noDefaults |};
     config.Output :=
       {| config.HTTP :=
            {| config.HTTP_Enabled := true; config.HTTP_Port := 8080;
               config.HTTP_Path := "" |};
          config.File :=
            {| config.File_Enabled := false; config.File_Path := "";
               config.File_Interval := 0 |} |};
     config.Server := {| config.PollInterval := 0 |} |}.

(** That configuration with the defaults of [Load]. *)
Definition loaded : config.Config :=
  {| config.Upstreams := [host1; host2];
     config.Routers :=
       {| config.Selector := {| config.Provider := ""; config.Status := "enabled" |};
          config.Defaults := noDefaults |};
     config.Output :=
       {| config.HTTP :=
            {| config.HTTP_Enabled := true; config.HTTP_Port := 8080;
               config.HTTP_Path := "/config" |};
          config.File :=
            {| config.File_Enabled := false; config.File_Path := "";
               config.File_Interval := 30 * traefik.Second |} |};
     config.Server := {| config.PollInterval := 10 * traefik.Second |} |}.

(** A disk that holds that file, and the decoder's reading of it. *)
Definition readFile (path : string) : string + error :=
  if bool_decide (path = "config.yaml") then inl "upstreams: ..."
  else inr (opaqueError "no such file or directory").

Definition yamlUnmarshal (data : string) : config.Config + error :=
  if bool_decide (data = "upstreams: ...") then inl bare
  else inr (opaqueError "cannot unmarshal").

(** A second entry for host1, with another admin URL. *)
Definition host1_moved : config.Upstream :=
  {| config.Name := "host1";
     config.AdminURL := "http://10.0.0.9:8080";
     config.ServerURL := "http://10.0.0.9:80" |}.

(** An upstream with no name, and one with a name only. *)
Definition nameless : config.Upstream :=
  {| config.Name := ""; config.AdminURL := ""; config.ServerURL := "" |}.

Definition host3_bare : config.Upstream :=
  {| config.Name := "host3"; config.AdminURL := ""; config.ServerURL := "" |}.

(** A stand-in for the YAML encoder: the published router names under the
    key "http". *)
Definition yamlEncode (config : dynamic.HTTPConfiguration) : string :=
  "http: " +:+ String.concat "," (map_to_list (dynamic.Routers config)).*1.

(** A disk on which every call succeeds, one that is full, and one on
    which the rename is refused. *)
Definition disk_ok : output.Outcome :=
  {| output.fails := fun _ => None; output.leftover := "" |}.

Definition disk_full : output.Outcome :=
  {| output.fails := fun c =>
       match c with
       | output.Encode => Some (opaqueError "no space left on device")
       | _ => None
       end;
     output.leftover := "http:" |}.

Definition rename_denied : output.Outcome :=
  {| output.fails := fun c =>
       match c with
       | output.Rename => Some (opaqueError "permission denied")
       | _ => None
       end;
     output.leftover := "" |}.

(** The file writer [main] makes for [federation]. *)
Definition writer : output.FileWriter :=
  output.NewFileWriter "/etc/traefik/dynamic/federation.yml" (30 * traefik.Second).

(** The state in which [main] enters its loop for [federation], no file
    written yet, and the state a sequence of actions leads to from there
    (the starting state stands in where the program panics). *)
Definition start : system.state :=
  {| system.sinks := main.setup federation;
     system.started := false;
     system.writer := {| output.currentConfig := None; output.files := ∅ |} |}.

Definition after (actions : list system.action) : system.state :=
  default start
    (system.run aggregator.ApplyDefaults (aggregator.New federation) yamlEncode writer
       actions start).

End example.

(** ** Tactics for the concrete instances *)

(** Closes a decidable goal about closed terms by evaluating its decision. *)
Ltac by_decision := apply (bool_decide_unpack _); vm_compute; exact I.

(** Closes an equation between closed terms by evaluating both sides. *)
Ltac by_evaluation := vm_compute; reflexivity.

(** Splits a hypothesis [x ∈ [a; b; ...]] into its cases. *)
Ltac elem_of_cases H :=
  repeat (apply elem_of_cons in H as [->|H]); [..|by apply elem_of_nil in H].

(** * Properties *)

(** ** Strings *)

Section strings.
Import GoStrings.

Lemma length_append (s t : string) :
  String.length (s +:+ t) = (String.length s + String.length t)%nat.
Proof. induction s as [|c s IH]; simpl; [done|by rewrite IH]. Qed.

Lemma append_inj_l (t s1 s2 : string) : s1 +:+ t = s2 +:+ t → s1 = s2.
Proof.
  revert s2. induction s1 as [|c s1 IH]; intros [|d s2] H; simpl in H.
  - done.
  - apply (f_equal String.length) in H. rewrite !length_append in H. simpl in H. lia.
  - apply (f_equal String.length) in H. rewrite !length_append in H. simpl in H. lia.
  - injection H as -> H. f_equal. by apply IH.
Qed.

Lemma prefix_nil (s : string) : String.prefix "" s = true.
Proof. by destruct s. Qed.

(** Two names joined to base names by "-" give the same key only if the
    names are equal, or one of them followed by "-" begins the other. *)
Lemma joined_key_inj (n1 n2 b1 b2 : string) :
  n1 +:+ "-" +:+ b1 = n2 +:+ "-" +:+ b2 →
  String.prefix (n1 +:+ "-") n2 = false →
  String.prefix (n2 +:+ "-") n1 = false →
  n1 = n2 ∧ b1 = b2.
Proof.
  revert n2. induction n1 as [|c n1 IH]; intros [|d n2] H H12 H21; simpl in *.
  - by injection H.
  - injection H as <- _. simpl in H12.
    destruct (ascii_dec "-" "-"); [|done]. by rewrite prefix_nil in H12.
  - injection H as -> _. simpl in H21.
    destruct (ascii_dec "-" "-"); [|done]. by rewrite prefix_nil in H21.
  - injection H as -> H.
    destruct (ascii_dec d d); [|done].
    destruct (IH n2 H H12 H21) as [-> ->]. done.
Qed.

Lemma Index_cons (c : ascii) (s substr : string) :
  Index (String c s) substr
  = if HasPrefix (String c s) substr then 0
    else if bool_decide (Index s substr = -1) then -1 else Index s substr + 1.
Proof. done. Qed.

Lemma HasPrefix_at_cons (c : ascii) (s : string) :
  HasPrefix (String c s) "@" = bool_decide (c = "@"%char).
Proof.
  unfold HasPrefix. cbn [String.prefix].
  destruct (ascii_dec "@" c) as [<-|Hc].
  - by rewrite prefix_nil.
  - by rewrite bool_decide_false.
Qed.

Lemma Index_at_ge (s : string) : Index s "@" = -1 ∨ 0 ≤ Index s "@".
Proof.
  induction s as [|c s IH]; [by left|].
  rewrite Index_cons, HasPrefix_at_cons.
  repeat case_bool_decide; lia.
Qed.

(** Cutting a name at the index of its first "@", as the loop body does,
    removes everything from the first "@" onward. *)
Lemma cut_at_before_at (s : string) :
  (if bool_decide (Index s "@" ≠ -1) then slice_to s (Index s "@") else s)
  = props.before_at s.
Proof.
  induction s as [|c s IH]; [done|].
  rewrite Index_cons, HasPrefix_at_cons. cbn [props.before_at].
  destruct (decide (c = "@"%char)) as [->|Hc].
  - by rewrite bool_decide_true.
  - rewrite (bool_decide_false (c = _)) by done.
    destruct (Index_at_ge s) as [E|Hge].
    + rewrite E in *. rewrite (bool_decide_true (-1 = -1)) by done.
      rewrite bool_decide_false by (intros ?; done).
      rewrite bool_decide_false in IH by (intros ?; done). by rewrite <- IH.
    + rewrite (bool_decide_false (Index s "@" = -1)) by lia.
      rewrite bool_decide_true by lia.
      rewrite bool_decide_true in IH by lia. rewrite <- IH.
      unfold slice_to.
      replace (Z.to_nat (Index s "@" + 1)) with (S (Z.to_nat (Index s "@"))) by lia.
      done.
Qed.

(** [before_at] is what its name says: the name is its [before_at] alone
    or followed by "@" and a rest, and no "@" occurs in the [before_at]. *)
Lemma before_at_split (s : string) :
  (s = props.before_at s ∨ ∃ rest, s = props.before_at s +:+ "@" +:+ rest) ∧
  ∀ pre post, props.before_at s ≠ pre +:+ "@" +:+ post.
Proof.
  induction s as [|c s [IH1 IH2]].
  - split; [by left|]. by intros [|??] ?.
  - cbn [props.before_at]. destruct (decide (c = "@"%char)) as [->|Hc].
    + split; [right; by exists s|]. by intros [|??] ?.
    + split.
      * destruct IH1 as [IH1|[rest IH1]]; [left|right; exists rest];
          by rewrite IH1 at 1.
      * intros [|d pre] post E; injection E as E1 E2.
        -- done.
        -- by eapply IH2.
Qed.

End strings.

(** ** Lists and maps *)

Lemma NoDup_reverse {A} (l : list A) : NoDup l → NoDup (reverse l).
Proof. by rewrite reverse_Permutation. Qed.

Lemma NoDup_fmap_elem_inj {A B} (f : A → B) (l : list A) x y :
  NoDup (f <$> l) → x ∈ l → y ∈ l → f x = f y → x = y.
Proof.
  induction l as [|z l IH]; [by intros _ ?%elem_of_nil|].
  rewrite fmap_cons, NoDup_cons. intros [Hz Hnd] Hx Hy E.
  apply elem_of_cons in Hx as [->|Hx]; apply elem_of_cons in Hy as [->|Hy].
  - done.
  - destruct Hz. rewrite E. by apply list_elem_of_fmap_2.
  - destruct Hz. rewrite <- E. by apply list_elem_of_fmap_2.
  - by apply IH.
Qed.

(** A loop of insertions builds the map of the written entries, a later
    write to a key replacing an earlier one. *)
Lemma foldl_insert_list_to_map {A V} (key : A → string) (val : A → V) (l : list A)
    (m : gmap string V) :
  foldl (fun m x => <[key x := val x]> m) m l
  = list_to_map (reverse ((fun x => (key x, val x)) <$> l)) ∪ m.
Proof.
  revert m. induction l as [|x l IH]; intros m; simpl.
  - by rewrite (left_id_L ∅ (∪)).
  - rewrite IH, reverse_cons, list_to_map_app. simpl.
    rewrite <- (assoc_L (∪)). f_equal.
    rewrite insert_empty. by rewrite <- insert_union_singleton_l.
Qed.

(** ** The filter *)

Section filter.
Import traefik props.

(** A list of pointers none of which is nil is the list of what they
    point to. *)
Lemma nil_free_fmap_Some {A} (l : list (option A)) :
  None ∉ l → l = Some <$> omap id l.
Proof.
  induction l as [|[x|] l IH]; intros Hl; simpl.
  - done.
  - f_equal. apply IH. intros Hin. apply Hl. by right.
  - destruct Hl. by left.
Qed.

Lemma omap_id_fmap_Some {A} (l : list A) : omap id (Some <$> l) = l.
Proof. induction l as [|x l IH]; simpl; [done|f_equal; exact IH]. Qed.

Lemma not_elem_of_fmap_Some {A} (l : list A) : None ∉ Some <$> l.
Proof. by intros (x & ? & _)%list_elem_of_fmap. Qed.

(** On routers that are all there the loop does not panic: it appends
    the selected ones, in order. *)
Lemma FilterRouters_acc routers provider status (acc : list (option RouterInfo)) :
  FilterRouters_range (Some <$> routers) provider status acc
  = Some (acc ++ (Some <$> filter (selects provider status) routers)).
Proof.
  revert acc. induction routers as [|r routers IH]; intros acc.
  - simpl. by rewrite app_nil_r.
  - rewrite fmap_cons. cbn [FilterRouters_range]. rewrite !IH, filter_cons.
    destruct (decide (selects provider status r)) as [Hs|Hs]; unfold selects in Hs;
      repeat case_bool_decide; simpl;
      first [ by rewrite <- app_assoc | done | exfalso; intuition congruence ].
Qed.

(** On a list that holds a nil router the loop panics, wherever the nil
    router is and whatever the criteria are. *)
Lemma FilterRouters_range_nil routers provider status acc :
  None ∈ routers → FilterRouters_range routers provider status acc = None.
Proof.
  revert acc. induction routers as [|[r|] routers IH]; intros acc Hin; simpl.
  - by apply elem_of_nil in Hin.
  - apply elem_of_cons in Hin as [?|Hin]; [done|].
    rewrite !IH by done. by repeat case_match.
  - done.
Qed.

Lemma FilterRouters_whole routers provider status :
  FilterRouters (Some <$> routers) provider status
  = Some (Some <$> filter (selects provider status) routers).
Proof. unfold FilterRouters. by rewrite FilterRouters_acc. Qed.

Lemma FilterRouters_nil routers provider status :
  None ∈ routers → FilterRouters routers provider status = None.
Proof. apply FilterRouters_range_nil. Qed.

(** [FilterRouters] returns exactly on the lists without nil router. *)
Lemma FilterRouters_returns routers provider status :
  None ∉ routers →
  FilterRouters routers provider status
  = Some (Some <$> filter (selects provider status) (omap id routers)).
Proof.
  intros Hl. rewrite (nil_free_fmap_Some routers Hl) at 1. apply FilterRouters_whole.
Qed.

Lemma FilterRouters_returns_inv routers provider status filtered :
  FilterRouters routers provider status = Some filtered →
  (None ∉ routers) ∧
  filtered = (Some <$> filter (selects provider status) (omap id routers)).
Proof.
  intros Hf. destruct (decide (None ∈ routers)) as [Hin|Hl].
  - by rewrite FilterRouters_nil in Hf.
  - rewrite FilterRouters_returns in Hf by done. split; [done|congruence].
Qed.

(** With a status given, [selects] is the rule as the specification words
    it. *)
Lemma selects_as_stated_iff provider status r :
  status ≠ "" → selects provider status r ↔ selects_as_stated provider status r.
Proof. unfold selects, selects_as_stated. tauto. Qed.

End filter.

(** ** The writes of a cycle *)

Section writes.
Import aggregator props.
Context (rev : revision) (env : traefik.Env).

Lemma routerEntries_nil a : routerEntries rev env a [] = [].
Proof. done. Qed.

Lemma serviceEntries_nil a : serviceEntries env a [] = [].
Proof. done. Qed.

Lemma routerEntries_cons a u ups :
  routerEntries rev env a (u :: ups)
  = ((fun router => (routerName u router, newRouter rev a router (serviceName u)))
       <$> selected env a u) ++ routerEntries rev env a ups.
Proof. done. Qed.

Lemma serviceEntries_cons a u ups :
  serviceEntries env a (u :: ups)
  = (if bool_decide (0 < length (selected env a u))%nat
     then [(serviceName u, newService u)] else [])
    ++ serviceEntries env a ups.
Proof. done. Qed.

Lemma routerEntries_app a l1 l2 :
  routerEntries rev env a (l1 ++ l2)
  = routerEntries rev env a l1 ++ routerEntries rev env a l2.
Proof. unfold routerEntries. apply bind_app. Qed.

Lemma serviceEntries_app a l1 l2 :
  serviceEntries env a (l1 ++ l2) = serviceEntries env a l1 ++ serviceEntries env a l2.
Proof. unfold serviceEntries. apply bind_app. Qed.

Lemma elem_of_routerEntries a ups k r :
  (k, r) ∈ routerEntries rev env a ups ↔
  ∃ u R, u ∈ ups ∧ R ∈ selected env a u ∧
         k = routerName u R ∧ r = newRouter rev a R (serviceName u).
Proof.
  unfold routerEntries. rewrite list_elem_of_bind. split.
  - intros (u & [R [[= -> ->] HR]]%list_elem_of_fmap & Hu). eauto 10.
  - intros (u & R & Hu & HR & -> & ->). exists u. split; [|done].
    apply list_elem_of_fmap. eauto.
Qed.

Lemma elem_of_serviceEntries a ups k s :
  (k, s) ∈ serviceEntries env a ups ↔
  ∃ u, u ∈ ups ∧ selected env a u ≠ [] ∧ k = serviceName u ∧ s = newService u.
Proof.
  unfold serviceEntries. rewrite list_elem_of_bind. split.
  - intros (u & Hin & Hu). case_bool_decide as Hlen; [|by apply elem_of_nil in Hin].
    apply list_elem_of_singleton in Hin as [= -> ->]. exists u.
    split_and!; try done. intros E. rewrite E in Hlen. simpl in Hlen. lia.
  - intros (u & Hu & Hsel & -> & ->). exists u. split; [|done].
    rewrite bool_decide_true; [apply list_elem_of_singleton; done|].
    destruct (selected env a u); [done|simpl; lia].
Qed.

Lemma routerEntries_keys a ups :
  (routerEntries rev env a ups).*1 = publishedKeys env a ups.
Proof.
  unfold routerEntries, publishedKeys.
  induction ups as [|u ups IH]; [done|].
  rewrite !bind_cons, fmap_app, IH. f_equal.
  rewrite <- list_fmap_compose. done.
Qed.

(** An upstream whose fetch fails writes nothing. *)
Lemma entries_failed a u err :
  fetch env a u = Some (inr err) →
  routerEntries rev env a [u] = [] ∧ serviceEntries env a [u] = [].
Proof.
  intros Hf. rewrite routerEntries_cons, serviceEntries_cons.
  unfold selected. rewrite Hf. done.
Qed.

(** The selected routers of an upstream whose fetch gives a list without
    nil router are what [FilterRouters] returns of it. *)
Lemma selected_returns a u routers :
  fetch env a u = Some (inl routers) →
  None ∉ routers →
  traefik.FilterRouters routers
    (config.Provider (config.Selector (config.Routers (config a))))
    (config.Status (config.Selector (config.Routers (config a))))
  = Some (Some <$> selected env a u).
Proof.
  intros Hf Hl. unfold selected. rewrite Hf, FilterRouters_returns by done.
  by rewrite omap_id_fmap_Some.
Qed.

(** The loop over filtered routers that are all there makes their writes,
    in order. *)
Lemma aggregateUpstream_range_whole a u svc l h :
  aggregateUpstream_range rev a u svc (Some <$> l) h
  = Some {| dynamic.Routers :=
              list_to_map
                (reverse ((fun router => (routerName u router, newRouter rev a router svc))
                            <$> l))
              ∪ dynamic.Routers h;
            dynamic.Services := dynamic.Services h |}.
Proof.
  revert h. induction l as [|x l IH]; intros h.
  - simpl. rewrite (left_id_L ∅ (∪)). by destruct h.
  - rewrite fmap_cons. cbn [aggregateUpstream_range]. rewrite IH.
    cbn [dynamic.Routers dynamic.Services]. do 2 f_equal.
    rewrite fmap_cons, reverse_cons, list_to_map_app. simpl.
    rewrite <- (assoc_L (∪)). f_equal.
    rewrite insert_empty. by rewrite <- insert_union_singleton_l.
Qed.

(** One call of [aggregateUpstream] on an upstream that has a client and
    returns no nil router adds the upstream's writes to the
    configuration. *)
Lemma aggregateUpstream_publishes a u h :
  is_Some (clients a !! config.Name u) →
  nil_free env a u →
  ∃ err,
    aggregateUpstream rev env a u h
    = Some ({| dynamic.Routers :=
                 list_to_map (reverse (routerEntries rev env a [u])) ∪ dynamic.Routers h;
               dynamic.Services :=
                 list_to_map (reverse (serviceEntries env a [u])) ∪ dynamic.Services h |},
            err).
Proof.
  intros [c Hc] Hnf. unfold aggregateUpstream.
  rewrite routerEntries_cons, serviceEntries_cons.
  rewrite routerEntries_nil, serviceEntries_nil, !app_nil_r.
  unfold nil_free in Hnf. rewrite Hc.
  destruct (fetch env a u) as [[routers|err]|] eqn:Hf;
    unfold fetch in Hf; rewrite Hc in Hf; simpl in Hf; [| |done].
  - injection Hf as Hf. rewrite Hf.
    assert (Hf' : fetch env a u = Some (inl routers)).
    { unfold fetch. rewrite Hc. simpl. by rewrite Hf. }
    rewrite (selected_returns a u routers Hf' Hnf), length_fmap.
    case_bool_decide as Hlen.
    + rewrite aggregateUpstream_range_whole. cbn [dynamic.Routers dynamic.Services].
      eexists. do 3 f_equal. simpl.
      rewrite insert_empty, <- insert_union_singleton_l. done.
    + eexists. do 2 f_equal. destruct h as [rs ss]; simpl.
      destruct (selected env a u); [|simpl in Hlen; lia].
      simpl. by rewrite !(left_id_L ∅ (∪)).
  - injection Hf as Hf. rewrite Hf.
    assert (Hsel : selected env a u = []).
    { unfold selected, fetch. rewrite Hc. simpl. by rewrite Hf. }
    rewrite Hsel. eexists. do 2 f_equal. destruct h as [rs ss]; simpl.
    by rewrite !(left_id_L ∅ (∪)).
Qed.

(** One call of [aggregateUpstream] on an upstream that returns a nil
    router panics. *)
Lemma aggregateUpstream_panics a u h :
  is_Some (clients a !! config.Name u) →
  ¬ nil_free env a u →
  aggregateUpstream rev env a u h = None.
Proof.
  intros [c Hc]. unfold nil_free, fetch, aggregateUpstream. rewrite Hc. simpl.
  destruct (traefik.GetRouters env c) as [routers|err]; [|tauto].
  intros Hin%dec_stable. by rewrite FilterRouters_nil.
Qed.

(** The loop over upstreams that all have a client and return no nil
    router never panics, and adds the writes of all of them, in order. *)
Lemma Aggregate_range_publishes a ups h :
  (∀ u, u ∈ ups → is_Some (clients a !! config.Name u)) →
  Forall (nil_free env a) ups →
  Aggregate_range rev env a ups h
  = Some {| dynamic.Routers :=
              list_to_map (reverse (routerEntries rev env a ups)) ∪ dynamic.Routers h;
            dynamic.Services :=
              list_to_map (reverse (serviceEntries env a ups)) ∪ dynamic.Services h |}.
Proof.
  revert h. induction ups as [|u ups IH]; intros h Hcl Hnf.
  - destruct h as [rs ss]. rewrite routerEntries_nil, serviceEntries_nil. simpl.
    by rewrite !(left_id_L ∅ (∪)).
  - apply Forall_cons in Hnf as [Hu Hnf].
    cbn [Aggregate_range]. destruct (aggregateUpstream_publishes a u h) as [err ->].
    { apply Hcl. by left. }
    { done. }
    assert (Hrest : ∀ u', u' ∈ ups → is_Some (clients a !! config.Name u')).
    { intros u' Hu'. apply Hcl. by right. }
    assert (Hstep : ∀ h1, (match err with
             | Some _ => Aggregate_range rev env a ups h1
             | None => Aggregate_range rev env a ups h1 end)
             = Aggregate_range rev env a ups h1) by (by destruct err).
    rewrite Hstep, IH by done. cbn [dynamic.Routers dynamic.Services]. do 2 f_equal.
    + rewrite (routerEntries_cons a u ups), (routerEntries_cons a u []).
      rewrite routerEntries_nil, app_nil_r.
      rewrite reverse_app, list_to_map_app. by rewrite (assoc_L (∪)).
    + rewrite (serviceEntries_cons a u ups), (serviceEntries_cons a u []).
      rewrite serviceEntries_nil, app_nil_r.
      rewrite reverse_app, list_to_map_app. by rewrite (assoc_L (∪)).
Qed.

(** The loop panics as soon as one of the upstreams returns a nil router,
    whatever the others return. *)
Lemma Aggregate_range_panics a ups h :
  (∀ u, u ∈ ups → is_Some (clients a !! config.Name u)) →
  ¬ Forall (nil_free env a) ups →
  Aggregate_range rev env a ups h = None.
Proof.
  revert h. induction ups as [|u ups IH]; intros h Hcl Hnf.
  - destruct Hnf. constructor.
  - cbn [Aggregate_range].
    assert (Hu : is_Some (clients a !! config.Name u)) by (apply Hcl; by left).
    destruct (decide (nil_free env a u)) as [Hnfu|Hnfu].
    + destruct (aggregateUpstream_publishes a u h Hu Hnfu) as [err ->].
      assert (Hstep : ∀ h1, (match err with
               | Some _ => Aggregate_range rev env a ups h1
               | None => Aggregate_range rev env a ups h1 end)
               = Aggregate_range rev env a ups h1) by (by destruct err).
      rewrite Hstep. apply IH.
      * intros u' Hu'. apply Hcl. by right.
      * intros Hall. apply Hnf. by constructor.
    + by rewrite aggregateUpstream_panics.
Qed.

End writes.

(** The writes depend on the aggregator and the network only through the
    router configuration and the outcome of each upstream's fetch. *)
Lemma entries_ext rev env env' a a' ups :
  config.Routers (aggregator.config a) = config.Routers (aggregator.config a') →
  (∀ u, u ∈ ups → props.fetch env a u = props.fetch env' a' u) →
  props.routerEntries rev env a ups = props.routerEntries rev env' a' ups ∧
  props.serviceEntries env a ups = props.serviceEntries env' a' ups.
Proof.
  intros Hcfg. induction ups as [|u ups IH]; intros Hfetch; [done|].
  destruct IH as [IHr IHs]; [intros u' Hu'; apply Hfetch; by right|].
  assert (Hsel : props.selected env a u = props.selected env' a' u).
  { unfold props.selected. rewrite (Hfetch u) by (by left). by rewrite Hcfg. }
  rewrite !routerEntries_cons, !serviceEntries_cons, IHr, IHs, Hsel. split; [|done].
  f_equal. apply list_fmap_ext. intros _ R _. f_equal.
  destruct rev; unfold aggregator.newRouter; by rewrite ?Hcfg.
Qed.

Lemma GetRouters_ext env env' c :
  traefik.httpGet env (traefik.baseURL c +:+ "/http/routers")
  = traefik.httpGet env' (traefik.baseURL c +:+ "/http/routers") →
  (∀ body, traefik.jsonUnmarshal env body = traefik.jsonUnmarshal env' body) →
  traefik.GetRouters env c = traefik.GetRouters env' c.
Proof.
  intros Hget Hdec. unfold traefik.GetRouters. rewrite Hget.
  destruct (traefik.httpGet env' _) as [resp|e]; [|done].
  case_bool_decide; [done|]. destruct (traefik.BodyErr resp); [done|].
  by rewrite Hdec.
Qed.

(** ** Aggregators built by [New] *)

Section new.
Import aggregator props.

Lemma New_clients cfg :
  clients (New cfg) = list_to_map (reverse (clientEntry <$> config.Upstreams cfg)).
Proof.
  unfold New. cbn [clients].
  rewrite (foldl_insert_list_to_map config.Name (fun u => traefik.NewClient (apiURL u))).
  by rewrite (right_id_L ∅ (∪)).
Qed.

(** Every configured upstream finds a client under its name: that of
    some configured upstream of the same name. *)
Lemma New_client_present cfg u :
  u ∈ config.Upstreams cfg →
  ∃ u', u' ∈ config.Upstreams cfg ∧ config.Name u' = config.Name u ∧
        clients (New cfg) !! config.Name u = Some (traefik.NewClient (apiURL u')).
Proof.
  intros Hu. rewrite New_clients.
  destruct (list_to_map (reverse (clientEntry <$> config.Upstreams cfg))
              !! config.Name u) as [c|] eqn:E.
  - apply elem_of_list_to_map_2, elem_of_reverse, list_elem_of_fmap in E
      as (u' & [= E1 ->] & Hu'). eauto.
  - apply not_elem_of_list_to_map_2 in E. destruct E.
    rewrite fmap_reverse, elem_of_reverse, <- list_fmap_compose.
    by apply (list_elem_of_fmap_2 (fst ∘ clientEntry)).
Qed.

(** With unique names, every configured upstream finds its own client. *)
Lemma New_client_own cfg u :
  NoDup (config.Name <$> config.Upstreams cfg) →
  u ∈ config.Upstreams cfg →
  clients (New cfg) !! config.Name u = Some (traefik.NewClient (apiURL u)).
Proof.
  intros Hnd Hu. rewrite New_clients. apply elem_of_list_to_map_1.
  - rewrite fmap_reverse, <- list_fmap_compose. by apply NoDup_reverse.
  - apply elem_of_reverse. by apply (list_elem_of_fmap_2 clientEntry).
Qed.

(** [Aggregate] on an aggregator built by [New], when no upstream returns
    a nil router: it returns, without error, the maps of the cycle's
    writes. *)
Lemma Aggregate_New rev env cfg :
  Forall (nil_free env (New cfg)) (config.Upstreams cfg) →
  Aggregate rev env (New cfg)
  = Some ({| dynamic.Routers :=
               list_to_map (reverse (routerEntries rev env (New cfg) (config.Upstreams cfg)));
             dynamic.Services :=
               list_to_map (reverse (serviceEntries env (New cfg) (config.Upstreams cfg))) |},
          None).
Proof.
  intros Hnf. unfold Aggregate. change (config (New cfg)) with cfg.
  rewrite Aggregate_range_publishes.
  - cbn [dynamic.Routers dynamic.Services]. by rewrite !(right_id_L ∅ (∪)).
  - intros u Hu. destruct (New_client_present cfg u Hu) as (u' & _ & _ & ->). eauto.
  - done.
Qed.

(** When some upstream returns a nil router, it panics. *)
Lemma Aggregate_New_panics rev env cfg :
  ¬ Forall (nil_free env (New cfg)) (config.Upstreams cfg) →
  Aggregate rev env (New cfg) = None.
Proof.
  intros Hnf. unfold Aggregate. change (config (New cfg)) with cfg.
  rewrite Aggregate_range_panics; [done| |done].
  intros u Hu. destruct (New_client_present cfg u Hu) as (u' & _ & _ & ->). eauto.
Qed.

(** So a cycle that returns had no nil router to read, returns no error,
    and returns the maps of its writes. *)
Lemma Aggregate_New_inv rev env cfg out err :
  Aggregate rev env (New cfg) = Some (out, err) →
  Forall (nil_free env (New cfg)) (config.Upstreams cfg) ∧
  out = {| dynamic.Routers :=
             list_to_map (reverse (routerEntries rev env (New cfg) (config.Upstreams cfg)));
           dynamic.Services :=
             list_to_map (reverse (serviceEntries env (New cfg) (config.Upstreams cfg))) |} ∧
  err = None.
Proof.
  intros Hout.
  destruct (decide (Forall (nil_free env (New cfg)) (config.Upstreams cfg))) as [Hnf|Hnf].
  - rewrite Aggregate_New in Hout by done. by injection Hout as <- <-.
  - by rewrite Aggregate_New_panics in Hout.
Qed.

Lemma published_router_inv rev env cfg out err k r :
  Aggregate rev env (New cfg) = Some (out, err) →
  dynamic.Routers out !! k = Some r →
  ∃ u R, u ∈ config.Upstreams cfg ∧ R ∈ selected env (New cfg) u ∧
         k = routerName u R ∧ r = newRouter rev (New cfg) R (serviceName u).
Proof.
  intros (_ & -> & _)%Aggregate_New_inv Hk. cbn [dynamic.Routers] in Hk.
  by apply elem_of_list_to_map_2, elem_of_reverse, elem_of_routerEntries in Hk.
Qed.

Lemma published_router_present rev env cfg out err u R :
  Aggregate rev env (New cfg) = Some (out, err) →
  u ∈ config.Upstreams cfg → R ∈ selected env (New cfg) u →
  is_Some (dynamic.Routers out !! routerName u R).
Proof.
  intros (_ & -> & _)%Aggregate_New_inv Hu HR. cbn [dynamic.Routers].
  apply not_eq_None_Some. intros E%not_elem_of_list_to_map_2. destruct E.
  rewrite fmap_reverse, elem_of_reverse.
  apply (list_elem_of_fmap_2' fst _
           (routerName u R, newRouter rev (New cfg) R (serviceName u))); [|done].
  apply elem_of_routerEntries. eauto 10.
Qed.

Lemma published_router_own rev env cfg out err u R :
  Aggregate rev env (New cfg) = Some (out, err) →
  NoDup (publishedKeys env (New cfg) (config.Upstreams cfg)) →
  u ∈ config.Upstreams cfg → R ∈ selected env (New cfg) u →
  dynamic.Routers out !! routerName u R
  = Some (newRouter rev (New cfg) R (serviceName u)).
Proof.
  intros (_ & -> & _)%Aggregate_New_inv Hnd Hu HR. cbn [dynamic.Routers].
  apply elem_of_list_to_map_1.
  - rewrite fmap_reverse, routerEntries_keys. by apply NoDup_reverse.
  - apply elem_of_reverse, elem_of_routerEntries. eauto 10.
Qed.

Lemma published_service_inv rev env cfg out err k s :
  Aggregate rev env (New cfg) = Some (out, err) →
  dynamic.Services out !! k = Some s →
  ∃ u, u ∈ config.Upstreams cfg ∧ selected env (New cfg) u ≠ [] ∧
       k = serviceName u ∧ s = newService u.
Proof.
  intros (_ & -> & _)%Aggregate_New_inv Hk. cbn [dynamic.Services] in Hk.
  by apply elem_of_list_to_map_2, elem_of_reverse, elem_of_serviceEntries in Hk.
Qed.

Lemma published_service_present rev env cfg out err u :
  Aggregate rev env (New cfg) = Some (out, err) →
  u ∈ config.Upstreams cfg → selected env (New cfg) u ≠ [] →
  is_Some (dynamic.Services out !! serviceName u).
Proof.
  intros (_ & -> & _)%Aggregate_New_inv Hu Hsel. cbn [dynamic.Services].
  apply not_eq_None_Some. intros E%not_elem_of_list_to_map_2. destruct E.
  rewrite fmap_reverse, elem_of_reverse.
  apply (list_elem_of_fmap_2' fst _ (serviceName u, newService u)); [|done].
  apply elem_of_serviceEntries. eauto 10.
Qed.

Lemma serviceName_inj u u' :
  serviceName u = serviceName u' → config.Name u = config.Name u'.
Proof. apply append_inj_l. Qed.

(** Whether an upstream returns a nil router depends on the aggregator
    and the network only through the outcome of its fetch. *)
Lemma nil_free_ext env env' a a' ups :
  (∀ u, u ∈ ups → fetch env a u = fetch env' a' u) →
  Forall (nil_free env a) ups ↔ Forall (nil_free env' a') ups.
Proof.
  intros Hfetch. rewrite !Forall_forall. unfold nil_free.
  split; intros H u Hu; specialize (H u Hu).
  - by rewrite <- Hfetch.
  - by rewrite Hfetch.
Qed.

End new.

(** * The properties of the specification *)

Section claims.
Import aggregator props.

(** ** C5: the filter *)

(** C5, as stated, fails: with no status given ([status] empty),
    [FilterRouters] returns a disabled router, which the rule as stated,
    wanting the router's status equal to the criteria's, rejects. *)
Lemma FilterRouters_unset_status :
  traefik.FilterRouters [Some example.stopped] "docker" ""
  = Some [Some example.stopped] ∧
  ¬ selects_as_stated "docker" "" example.stopped ∧
  filter (selects_as_stated "docker" "") [example.stopped] = [].
Proof.
  split; [by_evaluation|]. split; [|by_evaluation].
  intros (_ & _ & Hstatus). discriminate Hstatus.
Qed.

(** C5, amended: for every router list and criteria, [FilterRouters]
    returns exactly the input routers that (1) do not have provider
    "internal", (2) have the criteria's provider whenever that is
    non-empty, and (3) have the criteria's status whenever that is
    non-empty, in their input order.  (The routers of the list are
    routers: the slice holds no nil pointer.) *)
Theorem FilterRouters_selects (routers : list traefik.RouterInfo) provider status :
  traefik.FilterRouters (Some <$> routers) provider status
  = Some (Some <$> filter (selects provider status) routers).
Proof. unfold traefik.FilterRouters. by rewrite FilterRouters_acc. Qed.

(** With a status given, as [Load] always leaves one, the rule is the one
    the specification words. *)
Lemma FilterRouters_selects_as_stated (routers : list traefik.RouterInfo)
    provider status :
  status ≠ "" →
  traefik.FilterRouters (Some <$> routers) provider status
  = Some (Some <$> filter (selects_as_stated provider status) routers).
Proof.
  intros Hstatus. unfold traefik.FilterRouters. rewrite FilterRouters_acc. simpl.
  do 2 f_equal. apply list_filter_iff. intros r. by apply selects_as_stated_iff.
Qed.

Lemma Load_status_given readFile yamlUnmarshal path cfg :
  config.Load readFile yamlUnmarshal path = inl cfg →
  config.Status (config.Selector (config.Routers cfg)) ≠ "".
Proof.
  unfold config.Load. destruct (readFile path) as [data|]; [|done].
  destruct (yamlUnmarshal data) as [cfg0|]; [|done].
  intros [= <-]. simpl. by case_bool_decide.
Qed.

(** ** C2: delivery to the file writer *)

(** C2, as stated, fails.  A first cycle, run while host2 is down, puts
    its snapshot in the empty channel.  A second cycle, run before the
    file writer has received it, leaves that older snapshot in the
    channel; the new one, which differs, reaches the HTTP server only. *)
Lemma full_slot_keeps_pending_snapshot :
  main.runAggregation ApplyDefaults example.host2_down (New example.federation)
    example.sinks
  = Some example.sinks_pending ∧
  main.runAggregation ApplyDefaults example.both_up (New example.federation)
    example.sinks_pending
  = Some {| main.httpServer :=
              Some (output.UpdateConfig (output.NewHTTPServer 8080 "/config")
                      (snapshot ApplyDefaults example.both_up example.federation));
            main.fileConfigChan :=
              Some {| channel.cap := 1;
                      channel.buf :=
                        [snapshot ApplyDefaults example.host2_down example.federation] |} |} ∧
  Aggregate ApplyDefaults example.both_up (New example.federation)
  = Some (snapshot ApplyDefaults example.both_up example.federation, None) ∧
  snapshot ApplyDefaults example.both_up example.federation
  ≠ snapshot ApplyDefaults example.host2_down example.federation.
Proof.
  split; [by_evaluation|]. split; [by_evaluation|]. split; [by_evaluation|].
  intros E. apply (f_equal (fun h => dynamic.Routers h !! "host2-api")) in E.
  vm_compute in E. discriminate E.
Qed.

(** C2, amended: when a new snapshot is delivered while a previous one is
    still pending in the channel of capacity one, the send is skipped: the
    pending snapshot stays in the channel, to be received next, and the
    new one is dropped; [runAggregation] completes all the same (the
    producer is never blocked by the send).  The new snapshot is that of
    a cycle that returns one: no upstream returns a nil router. *)
Theorem runAggregation_full_slot rev env cfg s ch pending :
  Forall (nil_free env (New cfg)) (config.Upstreams cfg) →
  main.fileConfigChan s = Some ch →
  channel.cap ch = 1%nat →
  channel.buf ch = [pending] →
  ∃ s', main.runAggregation rev env (New cfg) s = Some s' ∧
        main.fileConfigChan s' = Some ch ∧
        ∃ ch', channel.recv ch = Some (pending, ch').
Proof.
  intros Hnf Hch Hcap Hbuf. unfold main.runAggregation.
  rewrite Aggregate_New by done. eexists. split; [done|]. cbn [main.fileConfigChan].
  rewrite Hch. unfold main.select_send_default, channel.send.
  rewrite Hcap, Hbuf. simpl. split; [done|].
  unfold channel.recv. rewrite Hbuf. eauto.
Qed.

Lemma runAggregation_full_slot_witness :
  ∃ s', main.runAggregation ApplyDefaults example.both_up (New example.federation)
          example.sinks_pending = Some s' ∧
        main.fileConfigChan s'
        = Some {| channel.cap := 1;
                  channel.buf :=
                    [snapshot ApplyDefaults example.host2_down example.federation] |} ∧
        ∃ ch', channel.recv
                 {| channel.cap := 1;
                    channel.buf :=
                      [snapshot ApplyDefaults example.host2_down example.federation] |}
               = Some (snapshot ApplyDefaults example.host2_down example.federation, ch').
Proof.
  assert (Hnf : Forall (nil_free example.both_up (New example.federation))
                  (config.Upstreams example.federation)) by by_decision.
  exact (runAggregation_full_slot ApplyDefaults example.both_up example.federation
           example.sinks_pending _ _ Hnf eq_refl eq_refl eq_refl).
Defined.

(** Whatever the state of the sinks, [runAggregation] completes when
    [Aggregate] does: the send never blocks it. *)
Lemma runAggregation_completes rev env cfg s :
  Forall (nil_free env (New cfg)) (config.Upstreams cfg) →
  ∃ s', main.runAggregation rev env (New cfg) s = Some s'.
Proof. intros Hnf. unfold main.runAggregation. rewrite Aggregate_New by done. eauto. Qed.

(** An empty slot takes the new snapshot. *)
Lemma runAggregation_empty_slot rev env cfg s ch :
  Forall (nil_free env (New cfg)) (config.Upstreams cfg) →
  main.fileConfigChan s = Some ch →
  channel.cap ch = 1%nat →
  channel.buf ch = [] →
  ∃ s', main.runAggregation rev env (New cfg) s = Some s' ∧
        main.fileConfigChan s'
        = Some {| channel.cap := 1; channel.buf := [snapshot rev env cfg] |}.
Proof.
  intros Hnf Hch Hcap Hbuf. unfold main.runAggregation, snapshot.
  rewrite Aggregate_New by done. eexists. split; [done|]. cbn [main.fileConfigChan].
  rewrite Hch. unfold main.select_send_default, channel.send.
  rewrite Hcap, Hbuf. done.
Qed.

(** ** C4: the published name *)

(** C4: every router surviving selection from upstream [U], of remote
    name [R], is published under the key made of [U]'s name, "-", and [R]
    with everything from its first "@" onward removed; where the published
    keys are pairwise distinct, the router under that key carries the
    rule of that remote router and names [U]'s service.  Published it is
    by a cycle that returns: one in which no upstream returns a nil
    router. *)
Theorem published_under_prefixed_base_name rev env cfg U R :
  Forall (nil_free env (New cfg)) (config.Upstreams cfg) →
  U ∈ config.Upstreams cfg →
  R ∈ selected env (New cfg) U →
  ∃ out r,
    Aggregate rev env (New cfg) = Some (out, None) ∧
    dynamic.Routers out !! (config.Name U +:+ "-" +:+ before_at (traefik.Name R))
    = Some r ∧
    (NoDup (publishedKeys env (New cfg) (config.Upstreams cfg)) →
     dynamic.Rule r = traefik.Rule R ∧
     dynamic.Service r = config.Name U +:+ "-traefik").
Proof.
  intros Hnf HU HR. pose proof (Aggregate_New rev env cfg Hnf) as Hout.
  destruct (published_router_present rev env cfg _ _ U R Hout HU HR) as [r Hr].
  eexists _, r. split; [exact Hout|]. split.
  - rewrite <- cut_at_before_at. exact Hr.
  - intros Hnd.
    assert (r = newRouter rev (New cfg) R (serviceName U)) as ->.
    { pose proof (published_router_own _ _ _ _ _ U R Hout Hnd HU HR) as Hown.
      congruence. }
    by destruct rev.
Qed.

(** In particular "memos@docker" of upstream "host1" is published as
    "host1-memos". *)
Lemma published_under_prefixed_base_name_witness :
  Forall (nil_free example.both_up (New example.federation))
    (config.Upstreams example.federation) ∧
  example.host1 ∈ config.Upstreams example.federation ∧
  example.memos ∈ selected example.both_up (New example.federation) example.host1 ∧
  traefik.Name example.memos = "memos@docker" ∧
  ∃ out r,
    Aggregate CopyUpstream example.both_up (New example.federation) = Some (out, None) ∧
    dynamic.Routers out !! "host1-memos" = Some r ∧
    dynamic.Rule r = "Host(`memos.example.com`)" ∧
    dynamic.Service r = "host1-traefik".
Proof.
  assert (Hnf : Forall (nil_free example.both_up (New example.federation))
                  (config.Upstreams example.federation)) by by_decision.
  assert (H1 : example.host1 ∈ config.Upstreams example.federation) by by_decision.
  assert (H2 : example.memos
               ∈ selected example.both_up (New example.federation) example.host1)
    by by_decision.
  split; [exact Hnf|]. split; [exact H1|]. split; [exact H2|]. split; [reflexivity|].
  destruct (published_under_prefixed_base_name CopyUpstream example.both_up
              example.federation example.host1 example.memos Hnf H1 H2)
    as (out & r & Hout & Hr & Hown).
  exists out, r. split; [exact Hout|]. split; [exact Hr|].
  apply Hown. by_decision.
Defined.

(** ** C8: one service per upstream with selected routers *)

(** C8: for every upstream [U] of a configuration with unique upstream
    names, the output holds a service named [U]'s name followed by
    "-traefik" if and only if [U]'s selected routers are not none, and
    that service has exactly one load-balancer target, [U]'s server URL.
    The output is that of a cycle that returns: one in which no upstream
    returns a nil router. *)
Theorem service_iff_selected rev env cfg U :
  Forall (nil_free env (New cfg)) (config.Upstreams cfg) →
  NoDup (config.Name <$> config.Upstreams cfg) →
  U ∈ config.Upstreams cfg →
  ∃ out,
    Aggregate rev env (New cfg) = Some (out, None) ∧
    (is_Some (dynamic.Services out !! (config.Name U +:+ "-traefik"))
     ↔ selected env (New cfg) U ≠ []) ∧
    (∀ svc, dynamic.Services out !! (config.Name U +:+ "-traefik") = Some svc →
            dynamic.LoadBalancer svc
            = Some {| dynamic.Servers := [ {| dynamic.URL := config.ServerURL U |} ] |}).
Proof.
  intros Hnf Hnd HU. eexists. split; [by apply Aggregate_New|].
  pose proof (Aggregate_New rev env cfg Hnf) as Hout.
  assert (Hinv : ∀ svc,
    dynamic.Services
      {| dynamic.Routers :=
           list_to_map (reverse (routerEntries rev env (New cfg) (config.Upstreams cfg)));
         dynamic.Services :=
           list_to_map (reverse (serviceEntries env (New cfg) (config.Upstreams cfg))) |}
      !! serviceName U = Some svc →
    selected env (New cfg) U ≠ [] ∧ svc = newService U).
  { intros svc Hsvc.
    destruct (published_service_inv rev env cfg _ _ _ svc Hout Hsvc)
      as (u & Hu & Hsel & Hname%serviceName_inj & ->).
    assert (u = U) as -> by (by eapply (NoDup_fmap_elem_inj config.Name); eauto).
    done. }
  split; [split|].
  - intros [svc Hsvc]. by apply (Hinv svc).
  - intros Hsel. by apply (published_service_present rev env cfg _ _ U Hout).
  - intros svc Hsvc. by destruct (Hinv svc Hsvc) as [_ ->].
Qed.

(** With host2 down, host2 has no selected router and no service, while
    host1 has its service, targeting host1's server URL. *)
Lemma service_iff_selected_witness :
  Forall (nil_free example.host2_down (New example.federation))
    (config.Upstreams example.federation) ∧
  NoDup (config.Name <$> config.Upstreams example.federation) ∧
  example.host1 ∈ config.Upstreams example.federation ∧
  example.host2 ∈ config.Upstreams example.federation ∧
  ∃ out,
    Aggregate ApplyDefaults example.host2_down (New example.federation) = Some (out, None) ∧
    dynamic.Services out !! "host2-traefik" = None ∧
    dynamic.Services out !! "host1-traefik"
    = Some {| dynamic.LoadBalancer :=
                Some {| dynamic.Servers := [ {| dynamic.URL := "http://10.0.0.1:80" |} ] |} |}.
Proof.
  assert (Hnd : NoDup (config.Name <$> config.Upstreams example.federation))
    by by_decision.
  assert (Hnf : Forall (nil_free example.host2_down (New example.federation))
                  (config.Upstreams example.federation)) by by_decision.
  assert (H1 : example.host1 ∈ config.Upstreams example.federation) by by_decision.
  assert (H2 : example.host2 ∈ config.Upstreams example.federation) by by_decision.
  split; [exact Hnf|]. split; [exact Hnd|]. split; [exact H1|]. split; [exact H2|].
  destruct (service_iff_selected ApplyDefaults example.host2_down example.federation
              example.host1 Hnf Hnd H1) as (out & Hout & [_ Hsome1] & Htarget1).
  destruct (service_iff_selected ApplyDefaults example.host2_down example.federation
              example.host2 Hnf Hnd H2) as (out' & Hout' & [Hnone2 _] & _).
  assert (out' = out) as -> by congruence.
  exists out. split; [exact Hout|]. split.
  - apply eq_None_not_Some. intros Hsome. by apply Hnone2 in Hsome.
  - destruct Hsome1 as [svc Hsvc]; [by vm_compute|].
    change (dynamic.Services out !! "host1-traefik" = Some svc) in Hsvc.
    rewrite Hsvc. f_equal. specialize (Htarget1 svc Hsvc).
    destruct svc as [lb]. simpl in Htarget1. by rewrite Htarget1.
Defined.

(** ** C10: referential integrity *)

(** C10: in every output of [Aggregate], the service every published
    router names is a key of the output's services.  [Aggregate] returns
    an output when no upstream returns a nil router. *)
Theorem published_router_service_exists rev env cfg :
  Forall (nil_free env (New cfg)) (config.Upstreams cfg) →
  ∃ out, Aggregate rev env (New cfg) = Some (out, None) ∧
         ∀ k r, dynamic.Routers out !! k = Some r →
                is_Some (dynamic.Services out !! dynamic.Service r).
Proof.
  intros Hnf. pose proof (Aggregate_New rev env cfg Hnf) as Hout.
  eexists. split; [exact Hout|]. intros k r Hk.
  destruct (published_router_inv rev env cfg _ _ k r Hout Hk)
    as (u & R & Hu & HR & _ & ->).
  replace (dynamic.Service (newRouter rev (New cfg) R (serviceName u)))
    with (serviceName u) by (by destruct rev).
  apply (published_service_present rev env cfg _ _ u Hout Hu).
  intros E. rewrite E in HR. by apply elem_of_nil in HR.
Qed.

(** The cycle over host1 and host2, both up, returns three routers, each
    naming a service of the output. *)
Lemma published_router_service_exists_witness :
  ∃ out,
    Aggregate ApplyDefaults example.both_up (New example.federation) = Some (out, None) ∧
    ∀ k r, dynamic.Routers out !! k = Some r →
           is_Some (dynamic.Services out !! dynamic.Service r).
Proof.
  apply (published_router_service_exists ApplyDefaults example.both_up example.federation).
  by_decision.
Defined.

(** ** C6: failure isolation *)

(** C6 does not hold of the code.  host2 answers 200 with the body
    [[null]]: the decoder returns, without error, a list of one nil
    router; [FilterRouters] reads its provider and panics.  The cycle
    returns nothing at all, the entries of host1 are lost with it, and
    [runAggregation] goes down too.  (With host2 down instead, the cycle
    returns the entries of host1.) *)
Lemma Aggregate_panics_on_nil_router :
  fetch example.host2_null (New example.federation) example.host2
  = Some (inl [None]) ∧
  traefik.FilterRouters [None] "docker" "enabled" = None ∧
  Aggregate CopyUpstream example.host2_null (New example.federation) = None ∧
  Aggregate ApplyDefaults example.host2_null (New example.federation) = None ∧
  main.runAggregation ApplyDefaults example.host2_null (New example.federation)
    example.sinks = None ∧
  is_Some (dynamic.Routers
             (snapshot ApplyDefaults example.host2_down example.federation)
             !! "host1-webapp") ∧
  Aggregate ApplyDefaults example.host2_down (New example.federation)
  = Some (snapshot ApplyDefaults example.host2_down example.federation, None).
Proof.
  split_and!; try by_evaluation. by_decision.
Qed.

(** What the code keeps of C6.  [Aggregate] never returns an error.  An
    upstream [U] whose fetch returns an error contributes nothing: the
    cycle is, its panic included, what it is over the configuration
    without [U] (upstream names being unique).  When every fetch returns
    an error, the cycle returns the configuration with empty routers and
    services. *)
Lemma Aggregate_isolates_failed_upstreams rev env cfg :
  (∀ out err, Aggregate rev env (New cfg) = Some (out, err) → err = None) ∧
  (∀ l1 U l2 err,
     config.Upstreams cfg = l1 ++ U :: l2 →
     NoDup (config.Name <$> config.Upstreams cfg) →
     fetch env (New cfg) U = Some (inr err) →
     Aggregate rev env (New (with_upstreams cfg (l1 ++ l2)))
     = Aggregate rev env (New cfg)) ∧
  ((∀ U, U ∈ config.Upstreams cfg → ∃ err, fetch env (New cfg) U = Some (inr err)) →
   Aggregate rev env (New cfg) = Some (emptyConfig, None)).
Proof.
  split_and!.
  - by intros out err (_ & _ & ->)%Aggregate_New_inv.
  - intros l1 U l2 err Hups Hnd Hfail.
    assert (Hnd' : NoDup (config.Name <$> l1 ++ l2)).
    { revert Hnd. rewrite Hups, !fmap_app, fmap_cons, !NoDup_app, NoDup_cons.
      intros (? & Hx & ? & ?). split_and!; try done.
      intros x Hx1 Hx2. apply (Hx x Hx1). by right. }
    assert (Hfetch : ∀ u, u ∈ l1 ++ l2 →
              fetch env (New cfg) u = fetch env (New (with_upstreams cfg (l1 ++ l2))) u).
    { intros u Hu. unfold fetch.
      rewrite (New_client_own cfg u), (New_client_own (with_upstreams cfg (l1 ++ l2)) u);
        [done|done|done|done|].
      rewrite Hups. revert Hu. rewrite !elem_of_app, elem_of_cons. tauto. }
    assert (Hsame : Forall (nil_free env (New cfg)) (config.Upstreams cfg)
                    ↔ Forall (nil_free env (New (with_upstreams cfg (l1 ++ l2)))) (l1 ++ l2)).
    { rewrite <- (nil_free_ext env env (New cfg) _ (l1 ++ l2) Hfetch).
      rewrite Hups, !Forall_app, Forall_cons.
      assert (nil_free env (New cfg) U) by (unfold nil_free; by rewrite Hfail).
      tauto. }
    destruct (decide (Forall (nil_free env (New cfg)) (config.Upstreams cfg))) as [Hnf|Hnf].
    + rewrite !Aggregate_New by (done || by apply Hsame).
      change (config.Upstreams (with_upstreams cfg (l1 ++ l2))) with (l1 ++ l2).
      rewrite Hups.
      destruct (entries_failed rev env (New cfg) U err Hfail) as [Er Es].
      destruct (entries_ext rev env env (New cfg) (New (with_upstreams cfg (l1 ++ l2)))
                  (l1 ++ l2)) as [Hr Hs]; [done|done|].
      rewrite <- Hr, <- Hs.
      rewrite (routerEntries_app _ _ _ l1 (U :: l2)), (routerEntries_cons _ _ _ U l2).
      rewrite (serviceEntries_app _ _ l1 (U :: l2)), (serviceEntries_cons _ _ U l2).
      rewrite routerEntries_cons, routerEntries_nil, app_nil_r in Er.
      rewrite serviceEntries_cons, serviceEntries_nil, app_nil_r in Es.
      rewrite Er, Es. by rewrite routerEntries_app, serviceEntries_app.
    + rewrite !Aggregate_New_panics; [done|done|].
      intros Hnf'. by apply Hnf, Hsame.
  - intros Hall.
    rewrite Aggregate_New.
    + unfold emptyConfig.
      assert (E : routerEntries rev env (New cfg) (config.Upstreams cfg) = [] ∧
                  serviceEntries env (New cfg) (config.Upstreams cfg) = []).
      { induction (config.Upstreams cfg) as [|u ups IH]; [done|].
        destruct (Hall u) as [err Hf]; [by left|].
        destruct (entries_failed rev env (New cfg) u err Hf) as [Er Es].
        rewrite routerEntries_cons, routerEntries_nil, app_nil_r in Er.
        rewrite serviceEntries_cons, serviceEntries_nil, app_nil_r in Es.
        rewrite routerEntries_cons, serviceEntries_cons, Er, Es.
        apply IH. intros U HU. apply Hall. by right. }
      destruct E as [-> ->]. done.
    + apply Forall_forall. intros u Hu. destruct (Hall u Hu) as [err Hf].
      unfold nil_free. by rewrite Hf.
Qed.

(** ** C9: the same responses give the same output *)

(** C9: two runs of [Aggregate] over the same configuration, on networks
    that answer the configured upstreams' router requests identically and
    decode bodies identically, return the same configuration: the same
    router keys with equal routers, the same service keys with equal
    services.  The runs are runs that return: no upstream returns a nil
    router. *)
Theorem Aggregate_same_responses rev env env' cfg :
  Forall (nil_free env (New cfg)) (config.Upstreams cfg) →
  (∀ u, u ∈ config.Upstreams cfg →
        traefik.httpGet env (routersURL u) = traefik.httpGet env' (routersURL u)) →
  (∀ body, traefik.jsonUnmarshal env body = traefik.jsonUnmarshal env' body) →
  ∃ out, Aggregate rev env (New cfg) = Some (out, None) ∧
         Aggregate rev env' (New cfg) = Some (out, None).
Proof.
  intros Hnf Hget Hdec.
  assert (Hfetch : ∀ u, u ∈ config.Upstreams cfg →
                        fetch env (New cfg) u = fetch env' (New cfg) u).
  { intros u Hu. unfold fetch.
    destruct (New_client_present cfg u Hu) as (u' & Hu' & _ & ->). simpl.
    f_equal. apply GetRouters_ext; [|done]. apply (Hget u' Hu'). }
  eexists. split; [by apply Aggregate_New|].
  rewrite Aggregate_New by (by apply (nil_free_ext env env' (New cfg) (New cfg))).
  destruct (entries_ext rev env env' (New cfg) (New cfg) (config.Upstreams cfg))
    as [-> ->]; done.
Qed.

Lemma Aggregate_same_responses_witness :
  ∃ out,
    Aggregate ApplyDefaults example.both_up (New example.federation) = Some (out, None) ∧
    Aggregate ApplyDefaults example.both_up_third_busy (New example.federation)
    = Some (out, None).
Proof.
  apply (Aggregate_same_responses ApplyDefaults example.both_up
           example.both_up_third_busy example.federation).
  - by_decision.
  - intros u Hu. elem_of_cases Hu; by_evaluation.
  - intros body. reflexivity.
Defined.

(** ** C1 and C7: the merge of the defaults *)

(** The text of [aggregateUpstream] in
    src/internal/aggregator/aggregator.go reads no default: it publishes
    each router with the entry points, middlewares and TLS configuration
    of the remote router. *)
Lemma CopyUpstream_inherits env cfg out err k r :
  Aggregate CopyUpstream env (New cfg) = Some (out, err) →
  dynamic.Routers out !! k = Some r →
  ∃ U R, U ∈ config.Upstreams cfg ∧ R ∈ selected env (New cfg) U ∧
         k = routerName U R ∧
         dynamic.EntryPoints r = traefik.EntryPoints R ∧
         dynamic.Middlewares r = traefik.Middlewares R ∧
         dynamic.TLS r = traefik.TLS R.
Proof.
  intros Hout Hk.
  destruct (published_router_inv _ _ _ _ _ _ _ Hout Hk) as (U & R & HU & HR & -> & ->).
  exists U, R. split_and!; try done. simpl. by destruct (traefik.TLS R).
Qed.

(** C1 does not hold of that text.  With default entry points
    [websecure] and no default middleware, webapp, which host1 serves on
    [web], is published with entry points [web], and wiki, which has a
    middleware at host1, is published with it; with no defaults at all,
    webapp is still published with entry points [web].  The other text of
    the function publishes, of the same, [websecure], no middleware, and
    no entry point. *)
Lemma CopyUpstream_publishes_remote_entryPoints :
  config.EntryPoints (defaults example.federation) = ["websecure"] ∧
  config.Middlewares (defaults example.federation) = [] ∧
  config.EntryPoints (defaults example.plain) = [] ∧
  example.webapp ∈ selected example.both_up (New example.federation) example.host1 ∧
  example.guarded ∈ selected example.host1_guarded (New example.federation) example.host1 ∧
  Aggregate CopyUpstream example.both_up (New example.federation)
  = Some (snapshot CopyUpstream example.both_up example.federation, None) ∧
  dynamic.EntryPoints
    <$> dynamic.Routers (snapshot CopyUpstream example.both_up example.federation)
          !! "host1-webapp"
  = Some ["web"] ∧
  dynamic.Middlewares
    <$> dynamic.Routers (snapshot CopyUpstream example.host1_guarded example.federation)
          !! "host1-wiki"
  = Some ["auth@docker"] ∧
  dynamic.EntryPoints
    <$> dynamic.Routers (snapshot CopyUpstream example.both_up example.plain)
          !! "host1-webapp"
  = Some ["web"] ∧
  dynamic.EntryPoints
    <$> dynamic.Routers (snapshot ApplyDefaults example.both_up example.federation)
          !! "host1-webapp"
  = Some ["websecure"] ∧
  dynamic.Middlewares
    <$> dynamic.Routers (snapshot ApplyDefaults example.host1_guarded example.federation)
          !! "host1-wiki"
  = Some [] ∧
  dynamic.EntryPoints
    <$> dynamic.Routers (snapshot ApplyDefaults example.both_up example.plain)
          !! "host1-webapp"
  = Some [].
Proof.
  split_and!; try by_evaluation; by_decision.
Qed.

(** C7 does not hold of that text either.  With the default resolver
    letsencrypt, memos, which has the resolver internal-ca at host1, is
    published with internal-ca, and webapp, which has no TLS
    configuration, is published with none.  The other text of the
    function publishes both with letsencrypt. *)
Lemma CopyUpstream_publishes_remote_TLS :
  config.TLS (defaults example.federation) = Some example.letsencrypt ∧
  example.memos ∈ selected example.both_up (New example.federation) example.host1 ∧
  example.webapp ∈ selected example.both_up (New example.federation) example.host1 ∧
  Aggregate CopyUpstream example.both_up (New example.federation)
  = Some (snapshot CopyUpstream example.both_up example.federation, None) ∧
  dynamic.TLS
    <$> dynamic.Routers (snapshot CopyUpstream example.both_up example.federation)
          !! "host1-memos"
  = Some (Some example.internal_ca) ∧
  dynamic.TLS
    <$> dynamic.Routers (snapshot CopyUpstream example.both_up example.federation)
          !! "host1-webapp"
  = Some None ∧
  dynamic.TLS
    <$> dynamic.Routers (snapshot ApplyDefaults example.both_up example.federation)
          !! "host1-memos"
  = Some (Some example.letsencrypt) ∧
  dynamic.TLS
    <$> dynamic.Routers (snapshot ApplyDefaults example.both_up example.federation)
          !! "host1-webapp"
  = Some (Some example.letsencrypt).
Proof.
  split_and!; try by_evaluation; by_decision.
Qed.

(** The other text of [aggregateUpstream], the second document of
    src/internal/config/config.go, does what C1 says: for every router
    surviving selection, the published router's entry points are the
    defaults' entry points when those are not empty, and empty otherwise;
    likewise its middlewares.  The remote router's own are never
    inherited. *)
Lemma published_entryPoints_middlewares env cfg U R :
  Forall (nil_free env (New cfg)) (config.Upstreams cfg) →
  U ∈ config.Upstreams cfg →
  R ∈ selected env (New cfg) U →
  ∃ out r,
    Aggregate ApplyDefaults env (New cfg) = Some (out, None) ∧
    dynamic.Routers out !! routerName U R = Some r ∧
    (config.EntryPoints (defaults cfg) ≠ [] →
       dynamic.EntryPoints r = config.EntryPoints (defaults cfg)) ∧
    (config.EntryPoints (defaults cfg) = [] → dynamic.EntryPoints r = []) ∧
    (config.Middlewares (defaults cfg) ≠ [] →
       dynamic.Middlewares r = config.Middlewares (defaults cfg)) ∧
    (config.Middlewares (defaults cfg) = [] → dynamic.Middlewares r = []).
Proof.
  intros Hnf HU HR.
  pose proof (Aggregate_New ApplyDefaults env cfg Hnf) as Hout.
  destruct (published_router_present _ _ _ _ _ U R Hout HU HR) as [r Hr].
  eexists _, r. split; [exact Hout|]. split; [exact Hr|].
  destruct (published_router_inv _ _ _ _ _ _ r Hout Hr) as (u' & R' & _ & _ & _ & ->).
  cbn [newRouter dynamic.EntryPoints dynamic.Middlewares].
  change (config.Defaults (config.Routers (config (New cfg)))) with (defaults cfg).
  destruct (config.EntryPoints (defaults cfg)), (config.Middlewares (defaults cfg)); done.
Qed.

(** With default entry points [websecure] and no default middleware, the
    router published for webapp, which the upstream serves on [web], has
    entry points [websecure] and no middleware; with no defaults at all
    its entry points are empty. *)
Lemma published_entryPoints_middlewares_witness :
  example.host1 ∈ config.Upstreams example.federation ∧
  example.webapp ∈ selected example.both_up (New example.federation) example.host1 ∧
  traefik.EntryPoints example.webapp = ["web"] ∧
  (∃ out r,
     Aggregate ApplyDefaults example.both_up (New example.federation) = Some (out, None) ∧
     dynamic.Routers out !! "host1-webapp" = Some r ∧
     dynamic.EntryPoints r = ["websecure"] ∧
     dynamic.Middlewares r = []) ∧
  (∃ out r,
     Aggregate ApplyDefaults example.both_up (New example.plain) = Some (out, None) ∧
     dynamic.Routers out !! "host1-webapp" = Some r ∧
     dynamic.EntryPoints r = []).
Proof.
  assert (Hnf : Forall (nil_free example.both_up (New example.federation))
                  (config.Upstreams example.federation)) by by_decision.
  assert (H1 : example.host1 ∈ config.Upstreams example.federation) by by_decision.
  assert (H2 : example.webapp
               ∈ selected example.both_up (New example.federation) example.host1)
    by by_decision.
  split; [exact H1|]. split; [exact H2|]. split; [reflexivity|]. split.
  - destruct (published_entryPoints_middlewares example.both_up example.federation
                example.host1 example.webapp Hnf H1 H2)
      as (out & r & Hout & Hr & Hentry & _ & _ & Hmiddle).
    exists out, r. split; [exact Hout|]. split; [exact Hr|]. split.
    + apply Hentry. discriminate.
    + apply Hmiddle. reflexivity.
  - destruct (published_entryPoints_middlewares example.both_up example.plain
                example.host1 example.webapp Hnf H1 H2)
      as (out & r & Hout & Hr & _ & Hentry & _ & _).
    exists out, r. split; [exact Hout|]. split; [exact Hr|].
    apply Hentry. reflexivity.
Defined.

(** The other text of [aggregateUpstream] does what C7 says: for every
    router surviving selection, the published router's TLS configuration
    is the defaults' when they have one; otherwise it is the own TLS
    configuration, present or absent, of the remote router published
    under that key: a survivor that bears the key, and the survivor
    itself when the published keys are pairwise distinct. *)
Lemma published_tls env cfg U R :
  Forall (nil_free env (New cfg)) (config.Upstreams cfg) →
  U ∈ config.Upstreams cfg →
  R ∈ selected env (New cfg) U →
  ∃ out r,
    Aggregate ApplyDefaults env (New cfg) = Some (out, None) ∧
    dynamic.Routers out !! routerName U R = Some r ∧
    (∀ tls, config.TLS (defaults cfg) = Some tls → dynamic.TLS r = Some tls) ∧
    (config.TLS (defaults cfg) = None →
       ∃ U' R', U' ∈ config.Upstreams cfg ∧ R' ∈ selected env (New cfg) U' ∧
                routerName U' R' = routerName U R ∧ dynamic.TLS r = traefik.TLS R') ∧
    (config.TLS (defaults cfg) = None →
       NoDup (publishedKeys env (New cfg) (config.Upstreams cfg)) →
       dynamic.TLS r = traefik.TLS R).
Proof.
  intros Hnf HU HR.
  pose proof (Aggregate_New ApplyDefaults env cfg Hnf) as Hout.
  destruct (published_router_present _ _ _ _ _ U R Hout HU HR) as [r Hr].
  eexists _, r. split; [exact Hout|]. split; [exact Hr|].
  assert (Htls : ∀ R0 sn, dynamic.TLS (newRouter ApplyDefaults (New cfg) R0 sn)
                 = match config.TLS (defaults cfg) with
                   | Some tls => Some tls
                   | None => traefik.TLS R0
                   end).
  { intros R0 sn. cbn [newRouter dynamic.TLS].
    change (config.Defaults (config.Routers (config (New cfg)))) with (defaults cfg).
    destruct (config.TLS (defaults cfg)); [done|]. by destruct (traefik.TLS R0). }
  split; [|split].
  - intros tls Hd.
    destruct (published_router_inv _ _ _ _ _ _ r Hout Hr) as (u' & R' & _ & _ & _ & ->).
    by rewrite Htls, Hd.
  - intros Hd.
    destruct (published_router_inv _ _ _ _ _ _ r Hout Hr)
      as (u' & R' & Hu' & HR' & Hk & ->).
    exists u', R'. split_and!; [done|done|done|]. by rewrite Htls, Hd.
  - intros Hd Hnd.
    assert (r = newRouter ApplyDefaults (New cfg) R (serviceName U)) as ->.
    { pose proof (published_router_own _ _ _ _ _ U R Hout Hnd HU HR) as Hown.
      congruence. }
    by rewrite Htls, Hd.
Qed.

(** The default resolver letsencrypt replaces the resolver memos has at
    its upstream; with no default, memos keeps its own and webapp, which
    has none, is published without TLS. *)
Lemma published_tls_witness :
  example.host1 ∈ config.Upstreams example.federation ∧
  example.memos ∈ selected example.both_up (New example.federation) example.host1 ∧
  example.webapp ∈ selected example.both_up (New example.federation) example.host1 ∧
  NoDup (publishedKeys example.both_up (New example.plain)
           (config.Upstreams example.plain)) ∧
  (∃ out r,
     Aggregate ApplyDefaults example.both_up (New example.federation) = Some (out, None) ∧
     dynamic.Routers out !! "host1-memos" = Some r ∧
     dynamic.TLS r = Some example.letsencrypt) ∧
  (∃ out r,
     Aggregate ApplyDefaults example.both_up (New example.plain) = Some (out, None) ∧
     dynamic.Routers out !! "host1-memos" = Some r ∧
     dynamic.TLS r = Some example.internal_ca) ∧
  (∃ out r,
     Aggregate ApplyDefaults example.both_up (New example.plain) = Some (out, None) ∧
     dynamic.Routers out !! "host1-webapp" = Some r ∧
     dynamic.TLS r = None).
Proof.
  assert (H1 : example.host1 ∈ config.Upstreams example.federation) by by_decision.
  assert (H2 : example.memos
               ∈ selected example.both_up (New example.federation) example.host1)
    by by_decision.
  assert (H3 : example.webapp
               ∈ selected example.both_up (New example.federation) example.host1)
    by by_decision.
  assert (Hnd : NoDup (publishedKeys example.both_up (New example.plain)
                         (config.Upstreams example.plain))) by by_decision.
  assert (Hnf : Forall (nil_free example.both_up (New example.federation))
                  (config.Upstreams example.federation)) by by_decision.
  split; [exact H1|]. split; [exact H2|]. split; [exact H3|]. split; [exact Hnd|].
  split; [|split].
  - destruct (published_tls example.both_up example.federation example.host1
                example.memos Hnf H1 H2) as (out & r & Hout & Hr & Hdefault & _).
    exists out, r. split; [exact Hout|]. split; [exact Hr|].
    apply Hdefault. reflexivity.
  - destruct (published_tls example.both_up example.plain example.host1
                example.memos Hnf H1 H2) as (out & r & Hout & Hr & _ & _ & Hown).
    exists out, r. split; [exact Hout|]. split; [exact Hr|].
    apply (Hown eq_refl Hnd).
  - destruct (published_tls example.both_up example.plain example.host1
                example.webapp Hnf H1 H3) as (out & r & Hout & Hr & _ & _ & Hown).
    exists out, r. split; [exact Hout|]. split; [exact Hr|].
    apply (Hown eq_refl Hnd).
Defined.

(** ** C3: distinct published keys *)

(** C3, as stated, fails.  Within one upstream, the routers "web@docker"
    and "web@file", of distinct names, are both published as "host1-web",
    so that one router is published for two survivors; across upstreams,
    the router "b-c" of upstream "a" and the router "c" of upstream "a-b"
    are both published as "a-b-c". *)
Lemma published_keys_collide :
  (NoDup (config.Name <$> [example.host1]) ∧
   fetch example.twins (New (example.cfg [example.host1] "" "enabled" example.noDefaults))
     example.host1 = Some (inl [Some example.web_docker; Some example.web_file]) ∧
   NoDup (traefik.Name <$> [example.web_docker; example.web_file]) ∧
   publishedKeys example.twins
     (New (example.cfg [example.host1] "" "enabled" example.noDefaults)) [example.host1]
   = ["host1-web"; "host1-web"] ∧
   size (dynamic.Routers
           (snapshot ApplyDefaults example.twins
              (example.cfg [example.host1] "" "enabled" example.noDefaults))) = 1%nat) ∧
  (NoDup (config.Name <$> [example.upstream_a; example.upstream_a_b]) ∧
   fetch example.hyphens
     (New (example.cfg [example.upstream_a; example.upstream_a_b] "docker" "enabled"
             example.noDefaults))
     <$> [example.upstream_a; example.upstream_a_b]
   = [Some (inl [Some example.b_c]); Some (inl [Some example.c])] ∧
   publishedKeys example.hyphens
     (New (example.cfg [example.upstream_a; example.upstream_a_b] "docker" "enabled"
             example.noDefaults))
     [example.upstream_a; example.upstream_a_b]
   = ["a-b-c"; "a-b-c"]) ∧
  ¬ NoDup ["host1-web"; "host1-web"] ∧
  ¬ NoDup ["a-b-c"; "a-b-c"].
Proof.
  split_and!; try by_evaluation; try by_decision.
Qed.

(** C3, amended: when upstream names are unique, no upstream name followed
    by "-" begins another upstream's name, and the selected routers of
    each upstream have pairwise distinct names once everything from the
    first "@" is removed, the published router keys of a cycle are
    pairwise distinct, and the output holds one router per selected
    router.  The cycle is one that returns: no upstream returns a nil
    router. *)
Theorem published_keys_distinct rev env cfg :
  Forall (nil_free env (New cfg)) (config.Upstreams cfg) →
  NoDup (config.Name <$> config.Upstreams cfg) →
  (∀ u1 u2, u1 ∈ config.Upstreams cfg → u2 ∈ config.Upstreams cfg →
            String.prefix (config.Name u1 +:+ "-") (config.Name u2) = false) →
  (∀ u, u ∈ config.Upstreams cfg → NoDup (baseName <$> selected env (New cfg) u)) →
  ∃ out,
    Aggregate rev env (New cfg) = Some (out, None) ∧
    NoDup (publishedKeys env (New cfg) (config.Upstreams cfg)) ∧
    size (dynamic.Routers out)
    = length (publishedKeys env (New cfg) (config.Upstreams cfg)).
Proof.
  intros Hnf Hnames Hprefix Hbase. eexists. split; [by apply Aggregate_New|].
  assert (Hnd : NoDup (publishedKeys env (New cfg) (config.Upstreams cfg))).
  { unfold publishedKeys. apply NoDup_bind.
    - intros u1 u2 key Hu1 Hu2 (R1 & -> & HR1)%list_elem_of_fmap
        (R2 & Hkey & HR2)%list_elem_of_fmap.
      destruct (joined_key_inj _ _ _ _ Hkey) as [Hn _]; [by apply Hprefix..|].
      by eapply (NoDup_fmap_elem_inj config.Name); eauto.
    - intros u Hu.
      rewrite (list_fmap_ext (routerName u)
                 ((fun b => config.Name u +:+ "-" +:+ b) ∘ baseName)
                 (selected env (New cfg) u)) by done.
      rewrite list_fmap_compose. apply NoDup_fmap_2; [|by apply Hbase].
      intros b1 b2 Hb. by do 2 apply (inj (String.append _)) in Hb.
    - by apply NoDup_fmap_1 in Hnames. }
  split; [done|]. cbn [dynamic.Routers].
  rewrite map_size_list_to_map.
  - by rewrite length_reverse, <- (routerEntries_keys rev), length_fmap.
  - rewrite fmap_reverse, routerEntries_keys. by apply NoDup_reverse.
Qed.

Lemma published_keys_distinct_witness :
  ∃ out,
    Aggregate ApplyDefaults example.both_up (New example.plain) = Some (out, None) ∧
    NoDup ["host1-webapp"; "host1-memos"; "host2-api"] ∧
    size (dynamic.Routers out) = 3%nat.
Proof.
  apply (published_keys_distinct ApplyDefaults example.both_up example.plain).
  - by_decision.
  - by_decision.
  - intros u1 u2 Hu1 Hu2. elem_of_cases Hu1; elem_of_cases Hu2; reflexivity.
  - intros u Hu. elem_of_cases Hu; by_decision.
Defined.

End claims.

(** * Further properties of the code *)

(** ** [Validate] and [Load] *)

Section configuration.
Import props.

Lemma Validate_range_None i upstreams :
  config.Validate_range i upstreams = None ↔ Forall complete upstreams.
Proof.
  revert i. induction upstreams as [|u upstreams IH]; intros i; simpl.
  - split; [by constructor|done].
  - rewrite Forall_cons. unfold complete at 1.
    repeat case_bool_decide; try (split; [done|]; tauto).
    rewrite IH. tauto.
Qed.

Lemma Validate_range_app i l1 l2 :
  Forall complete l1 →
  config.Validate_range i (l1 ++ l2)
  = config.Validate_range (i + Z.of_nat (length l1)) l2.
Proof.
  revert i. induction l1 as [|u l1 IH]; intros i Hl1; simpl.
  - f_equal. lia.
  - apply Forall_cons in Hl1 as [(Hn & Ha & Hs) Hl1].
    rewrite !bool_decide_false by done. rewrite IH by done. f_equal. lia.
Qed.

(** X1: [Validate] accepts exactly the valid configurations. *)
Theorem Validate_accepts_iff_valid c :
  config.Validate c = None ↔ valid c.
Proof.
  unfold config.Validate, valid.
  case_bool_decide as Hlen.
  - split; [done|]. intros [Hne _]. by destruct (config.Upstreams c).
  - assert (config.Upstreams c ≠ []) by (by destruct (config.Upstreams c)).
    destruct (config.Validate_range 0 (config.Upstreams c)) as [err|] eqn:E.
    + split; [done|]. intros (_ & Hall & _).
      apply (Validate_range_None 0) in Hall. congruence.
    + apply Validate_range_None in E.
      destruct (config.HTTP_Enabled _), (config.File_Enabled _); simpl;
        repeat case_bool_decide; split; try done;
        intuition (try discriminate; try lia; try congruence).
Qed.

(** X2: [Validate] reports the first upstream that is not complete: by its
    index when the name is missing, by its name otherwise, the admin URL
    before the server URL; and it reports it whatever the outputs are. *)
Theorem Validate_reports_first_incomplete c l1 u l2 :
  config.Upstreams c = l1 ++ u :: l2 →
  Forall complete l1 →
  ¬ complete u →
  config.Validate c
  = Some (opaqueError
            (if bool_decide (config.Name u = "")
             then "upstream " +:+ pretty (Z.of_nat (length l1)) +:+ ": name is required"
             else if bool_decide (config.AdminURL u = "")
             then "upstream " +:+ config.Name u +:+ ": admin_url is required"
             else "upstream " +:+ config.Name u +:+ ": server_url is required")).
Proof.
  intros Hups Hl1 Hu. unfold config.Validate. rewrite Hups.
  rewrite bool_decide_false by (rewrite length_app; simpl; lia).
  rewrite Validate_range_app by done. simpl.
  unfold complete in Hu.
  repeat case_bool_decide; try done; exfalso; tauto.
Qed.

Lemma Validate_reports_first_incomplete_witness :
  config.Validate
    (example.cfg [example.host1; example.nameless; example.host3_bare]
       "" "enabled" example.noDefaults)
  = Some (opaqueError "upstream 1: name is required").
Proof.
  etrans.
  - apply (Validate_reports_first_incomplete
             (example.cfg [example.host1; example.nameless; example.host3_bare]
                "" "enabled" example.noDefaults)
             [example.host1] example.nameless [example.host3_bare]).
    + reflexivity.
    + by_decision.
    + by_decision.
  - by_evaluation.
Defined.

(** X3: [Validate] never compares upstream names: a valid configuration stays
    valid when one of its upstreams is listed once more. *)
Theorem Validate_accepts_repeated_upstream c u :
  config.Validate c = None →
  u ∈ config.Upstreams c →
  config.Validate (with_upstreams c (config.Upstreams c ++ [u])) = None.
Proof.
  unfold config.Validate. cbn [with_upstreams config.Upstreams config.Output].
  intros Hc Hu. case_bool_decide as Hlen; [done|].
  rewrite bool_decide_false by (rewrite length_app; simpl; lia).
  destruct (config.Validate_range 0 (config.Upstreams c)) as [err|] eqn:E; [done|].
  apply Validate_range_None in E.
  assert (E' : config.Validate_range 0 (config.Upstreams c ++ [u]) = None).
  { apply Validate_range_None, Forall_app. split; [done|].
    apply Forall_singleton. by eapply Forall_forall in E. }
  by rewrite E'.
Qed.

Lemma Validate_accepts_repeated_upstream_witness :
  config.Validate example.federation = None ∧
  config.Validate
    (example.cfg [example.host1; example.host2; example.host1] "docker" "enabled"
       example.websecure) = None.
Proof.
  assert (H : config.Validate example.federation = None) by reflexivity.
  split; [exact H|].
  apply (Validate_accepts_repeated_upstream example.federation example.host1 H).
  by_decision.
Defined.

(** X4: whatever the file holds, a configuration [Load] returns has a poll
    interval, an HTTP path, a file interval and a selector status. *)
Theorem Load_fills_defaults readFile yamlUnmarshal path cfg :
  config.Load readFile yamlUnmarshal path = inl cfg →
  config.PollInterval (config.Server cfg) ≠ 0 ∧
  config.HTTP_Path (config.HTTP (config.Output cfg)) ≠ "" ∧
  config.File_Interval (config.File (config.Output cfg)) ≠ 0 ∧
  config.Status (config.Selector (config.Routers cfg)) ≠ "".
Proof.
  unfold config.Load. destruct (readFile path) as [data|]; [|done].
  destruct (yamlUnmarshal data) as [cfg0|]; [|done].
  intros [= <-]. simpl. repeat case_bool_decide; done.
Qed.

Lemma Load_fills_defaults_witness :
  config.Load example.readFile example.yamlUnmarshal "config.yaml" = inl example.loaded ∧
  config.PollInterval (config.Server example.loaded) ≠ 0 ∧
  config.HTTP_Path (config.HTTP (config.Output example.loaded)) ≠ "" ∧
  config.File_Interval (config.File (config.Output example.loaded)) ≠ 0 ∧
  config.Status (config.Selector (config.Routers example.loaded)) ≠ "".
Proof.
  assert (H : config.Load example.readFile example.yamlUnmarshal "config.yaml"
              = inl example.loaded) by by_evaluation.
  split; [exact H|].
  exact (Load_fills_defaults _ _ _ _ H).
Defined.

(** X5: [Load] returns a configuration that has those four settings as the
    decoder gives it; so a configuration [Load] returned, written out and
    loaded again, comes back the same. *)
Theorem Load_keeps_set_values readFile yamlUnmarshal path data parsed :
  readFile path = inl data →
  yamlUnmarshal data = inl parsed →
  config.PollInterval (config.Server parsed) ≠ 0 →
  config.HTTP_Path (config.HTTP (config.Output parsed)) ≠ "" →
  config.File_Interval (config.File (config.Output parsed)) ≠ 0 →
  config.Status (config.Selector (config.Routers parsed)) ≠ "" →
  config.Load readFile yamlUnmarshal path = inl parsed.
Proof.
  intros Hr Hy H1 H2 H3 H4. unfold config.Load. rewrite Hr, Hy.
  rewrite !bool_decide_false by done.
  by destruct parsed as [ups [[prov st] defs] [[he hp hpath] [fe fp fi]] [pi]].
Qed.

Lemma Load_keeps_set_values_witness :
  config.Load (fun _ => inl "written out") (fun _ => inl example.loaded) "config.yaml"
  = inl example.loaded.
Proof.
  apply (Load_keeps_set_values _ _ _ "written out" example.loaded);
    [reflexivity|reflexivity|discriminate|discriminate|discriminate|discriminate].
Defined.

(** X6: the defaults of [Load] never change what [Validate] says: it says of
    the loaded configuration what it would say of the decoded one. *)
Theorem Load_preserves_Validate readFile yamlUnmarshal path cfg :
  config.Load readFile yamlUnmarshal path = inl cfg →
  ∃ data parsed,
    readFile path = inl data ∧ yamlUnmarshal data = inl parsed ∧
    config.Validate cfg = config.Validate parsed.
Proof.
  unfold config.Load. destruct (readFile path) as [data|] eqn:Hr; [|done].
  destruct (yamlUnmarshal data) as [parsed|] eqn:Hy; [|done].
  intros [= <-]. exists data, parsed. split_and!; [done|done|reflexivity].
Qed.

Lemma Load_preserves_Validate_witness :
  config.Load example.readFile example.yamlUnmarshal "config.yaml" = inl example.loaded ∧
  config.Validate example.loaded = config.Validate example.bare ∧
  config.Validate example.bare = None.
Proof.
  assert (H : config.Load example.readFile example.yamlUnmarshal "config.yaml"
              = inl example.loaded) by by_evaluation.
  split; [exact H|].
  destruct (Load_preserves_Validate _ _ _ _ H) as (data & parsed & Hr & Hy & Hv).
  assert (parsed = example.bare) as ->.
  { revert Hr Hy. unfold example.readFile, example.yamlUnmarshal.
    rewrite bool_decide_true by reflexivity. intros [= <-].
    rewrite bool_decide_true by reflexivity. by intros [= <-]. }
  split; [exact Hv|reflexivity].
Defined.

(** X7: a process that gets past [Load] and [Validate] starts with at least
    one sink; its HTTP server, if any, has a positive port and a path, and
    its channel to the file writer, if any, is empty and of capacity one. *)
Theorem setup_after_startup readFile yamlUnmarshal path cfg :
  config.Load readFile yamlUnmarshal path = inl cfg →
  config.Validate cfg = None →
  (is_Some (main.httpServer (main.setup cfg)) ∨
   is_Some (main.fileConfigChan (main.setup cfg))) ∧
  (∀ srv, main.httpServer (main.setup cfg) = Some srv →
          0 < output.port srv ∧ output.path srv ≠ "" ∧
          output.config srv = emptyConfig) ∧
  (∀ ch, main.fileConfigChan (main.setup cfg) = Some ch →
         channel.cap ch = 1%nat ∧ channel.buf ch = []).
Proof.
  intros Hload Hvalid.
  assert (Hpath : config.HTTP_Path (config.HTTP (config.Output cfg)) ≠ "").
  { revert Hload. unfold config.Load. destruct (readFile path) as [data|]; [|done].
    destruct (yamlUnmarshal data) as [cfg0|]; [|done].
    intros [= <-]. simpl. repeat case_bool_decide; done. }
  revert Hvalid. unfold config.Validate, main.setup.
  cbn [main.httpServer main.fileConfigChan].
  case_bool_decide; [done|].
  destruct (config.Validate_range 0 (config.Upstreams cfg)); [done|].
  destruct (config.HTTP_Enabled _), (config.File_Enabled _); simpl;
    repeat case_bool_decide; try done; intros _;
    (split; [eauto|]); split; intros ? [= <-]; simpl; split_and!; try done; lia.
Qed.

Lemma setup_after_startup_witness :
  config.Load example.readFile example.yamlUnmarshal "config.yaml" = inl example.loaded ∧
  config.Validate example.loaded = None ∧
  main.setup example.loaded
  = {| main.httpServer := Some (output.NewHTTPServer 8080 "/config");
       main.fileConfigChan := None |} ∧
  (is_Some (main.httpServer (main.setup example.loaded)) ∨
   is_Some (main.fileConfigChan (main.setup example.loaded))).
Proof.
  assert (H1 : config.Load example.readFile example.yamlUnmarshal "config.yaml"
               = inl example.loaded) by by_evaluation.
  assert (H2 : config.Validate example.loaded = None) by reflexivity.
  split; [exact H1|]. split; [exact H2|]. split; [reflexivity|].
  exact (proj1 (setup_after_startup _ _ _ _ H1 H2)).
Defined.

End configuration.

(** ** The API client and the filter *)

Section client.
Import props.

(** X8: [GetRouters] returns a router list exactly when the upstream answers
    the request for its routers URL with status 200 and a body that is
    read whole and decodes; the list is then the decoded one. *)
Theorem GetRouters_succeeds_iff env c routers :
  traefik.GetRouters env c = inl routers ↔
  ∃ resp,
    traefik.httpGet env (traefik.baseURL c +:+ "/http/routers") = inl resp ∧
    traefik.StatusCode resp = 200 ∧
    traefik.BodyErr resp = None ∧
    traefik.jsonUnmarshal env (traefik.Body resp) = inl routers.
Proof.
  unfold traefik.GetRouters, traefik.StatusOK.
  destruct (traefik.httpGet env _) as [resp|err].
  - case_bool_decide as Hst.
    + split; [done|]. intros (resp' & [= <-] & ? & _). done.
    + destruct (traefik.BodyErr resp) as [err|] eqn:Hb.
      * split; [done|]. intros (resp' & [= <-] & _ & ? & _). congruence.
      * destruct (traefik.jsonUnmarshal env (traefik.Body resp)) as [rs|err] eqn:Hd.
        -- split.
           ++ intros [= <-]. by exists resp.
           ++ intros (resp' & [= <-] & _ & _ & Hd'). congruence.
        -- split; [done|]. intros (resp' & [= <-] & _ & _ & Hd'). congruence.
  - split; [done|]. by intros (resp & ? & _).
Qed.

(** X9: an answer with another status than 200 is reported with its status
    and its body, which is not decoded: the result is the same whatever
    the decoder would make of the body. *)
Theorem GetRouters_reports_status env c resp :
  traefik.httpGet env (traefik.baseURL c +:+ "/http/routers") = inl resp →
  traefik.StatusCode resp ≠ 200 →
  ∀ decode,
    traefik.GetRouters
      {| traefik.httpGet := traefik.httpGet env; traefik.jsonUnmarshal := decode |} c
    = inr (statusError (traefik.StatusCode resp) (traefik.Body resp)).
Proof.
  intros Hget Hst decode. unfold traefik.GetRouters, traefik.StatusOK. simpl.
  rewrite Hget. by rewrite bool_decide_true.
Qed.

Lemma GetRouters_reports_status_witness :
  traefik.GetRouters
    {| traefik.httpGet := traefik.httpGet example.both_up_third_busy;
       traefik.jsonUnmarshal := fun _ => inl [Some example.webapp] |}
    (traefik.NewClient "http://10.0.0.3:8080/api")
  = inr (statusError 503 "busy").
Proof.
  apply (GetRouters_reports_status example.both_up_third_busy
           (traefik.NewClient "http://10.0.0.3:8080/api")
           {| traefik.StatusCode := 503; traefik.Body := "busy";
              traefik.BodyErr := None |}).
  - by_evaluation.
  - discriminate.
Defined.

(** X10: filtering is idempotent: what [FilterRouters] returns passes the
    same filter unchanged. *)
Theorem FilterRouters_idempotent routers provider status filtered :
  traefik.FilterRouters routers provider status = Some filtered →
  traefik.FilterRouters filtered provider status = Some filtered.
Proof.
  intros [_ ->]%FilterRouters_returns_inv. rewrite FilterRouters_whole. do 2 f_equal.
  rewrite list_filter_filter. apply list_filter_iff. intros r. tauto.
Qed.

Lemma FilterRouters_idempotent_witness :
  traefik.FilterRouters [Some example.webapp; Some example.api] "docker" "enabled"
  = Some [Some example.webapp; Some example.api].
Proof.
  apply (FilterRouters_idempotent
           [Some example.webapp; Some example.dashboard; Some example.stopped;
            Some example.api] "docker" "enabled").
  by_evaluation.
Defined.

(** X11: criteria only ever remove routers: what a filter with a provider
    and a status returns is, in the same order, part of what the filter
    with neither returns, which is part of the input, and no router of
    provider "internal" passes any filter. *)
Theorem FilterRouters_narrows routers provider status filtered :
  traefik.FilterRouters routers provider status = Some filtered →
  ∃ unfiltered,
    traefik.FilterRouters routers "" "" = Some unfiltered ∧
    filtered `sublist_of` unfiltered ∧
    unfiltered `sublist_of` routers ∧
    Forall (fun router => ∃ r, router = Some r ∧ traefik.Provider r ≠ "internal")
      filtered.
Proof.
  intros [Hl ->]%FilterRouters_returns_inv.
  exists (Some <$> filter (selects "" "") (omap id routers)). split_and!.
  - by apply FilterRouters_returns.
  - apply fmap_sublist.
    induction (omap id routers) as [|r rs IH]; [done|].
    rewrite !filter_cons.
    destruct (decide (selects provider status r)) as [Hs|Hs];
      destruct (decide (selects "" "" r)) as [Hn|Hn].
    + by constructor.
    + destruct Hn. unfold selects in *. tauto.
    + by constructor.
    + done.
  - rewrite (nil_free_fmap_Some routers Hl) at 2. apply fmap_sublist, sublist_filter.
  - apply Forall_fmap, Forall_forall. intros r Hr.
    apply list_elem_of_filter in Hr as [[? _] _]. by exists r.
Qed.

Lemma FilterRouters_narrows_witness :
  ∃ unfiltered,
    traefik.FilterRouters
      [Some example.webapp; Some example.dashboard; Some example.stopped;
       Some example.web_file] "" ""
    = Some unfiltered ∧
    [Some example.webapp] `sublist_of` unfiltered ∧
    unfiltered `sublist_of`
      [Some example.webapp; Some example.dashboard; Some example.stopped;
       Some example.web_file] ∧
    Forall (fun router => ∃ r, router = Some r ∧ traefik.Provider r ≠ "internal")
      [Some example.webapp].
Proof.
  apply (FilterRouters_narrows
           [Some example.webapp; Some example.dashboard; Some example.stopped;
            Some example.web_file] "docker" "enabled").
  by_evaluation.
Defined.

End client.

(** ** More on one cycle of aggregation *)

Section cycle.
Import aggregator props.

Lemma selected_inv env a U R :
  R ∈ selected env a U →
  ∃ routers,
    fetch env a U = Some (inl routers) ∧ Some R ∈ routers ∧
    selects (config.Provider (config.Selector (config.Routers (config a))))
            (config.Status (config.Selector (config.Routers (config a)))) R.
Proof.
  unfold selected. destruct (fetch env a U) as [[routers|err]|]; try by intros ?%elem_of_nil.
  destruct (traefik.FilterRouters routers _ _) as [filtered|] eqn:Hf;
    [|by intros ?%elem_of_nil].
  apply FilterRouters_returns_inv in Hf as [Hl ->]. rewrite omap_id_fmap_Some.
  intros [Hsel HR]%list_elem_of_filter. exists routers. split_and!; [done| |done].
  rewrite (nil_free_fmap_Some routers Hl). by apply list_elem_of_fmap_2.
Qed.

(** X12: every router a cycle publishes comes from a router some
    configured upstream returned in this cycle, which is not of provider
    "internal" and has the selector's provider and status where those are
    given; it is published under that upstream's prefix with the remote
    router's rule, and names the service of that upstream, never the
    remote router's own service.  (A cycle publishes when it returns: no
    upstream returns a nil router.) *)
Theorem published_router_provenance rev env cfg :
  Forall (nil_free env (New cfg)) (config.Upstreams cfg) →
  ∃ out,
    Aggregate rev env (New cfg) = Some (out, None) ∧
    ∀ k r, dynamic.Routers out !! k = Some r →
      ∃ U R routers,
        U ∈ config.Upstreams cfg ∧
        fetch env (New cfg) U = Some (inl routers) ∧ Some R ∈ routers ∧
        selects (config.Provider (config.Selector (config.Routers cfg)))
                (config.Status (config.Selector (config.Routers cfg))) R ∧
        k = config.Name U +:+ "-" +:+ before_at (traefik.Name R) ∧
        dynamic.Rule r = traefik.Rule R ∧
        dynamic.Service r = config.Name U +:+ "-traefik".
Proof.
  intros Hnf. eexists. split; [by apply Aggregate_New|]. intros k r Hk.
  destruct (published_router_inv rev env cfg _ _ k r (Aggregate_New rev env cfg Hnf) Hk)
    as (U & R & HU & HR & -> & ->).
  destruct (selected_inv _ _ _ _ HR) as (routers & Hf & Hin & Hsel).
  exists U, R, routers. split_and!; try done.
  - unfold routerName, baseName. by rewrite cut_at_before_at.
  - by destruct rev.
  - by destruct rev.
Qed.

Lemma published_router_provenance_witness :
  ∃ out,
    Aggregate ApplyDefaults example.both_up (New example.federation) = Some (out, None) ∧
    ∀ k r, dynamic.Routers out !! k = Some r →
      ∃ U R routers,
        U ∈ config.Upstreams example.federation ∧
        fetch example.both_up (New example.federation) U = Some (inl routers) ∧
        Some R ∈ routers ∧
        selects "docker" "enabled" R ∧
        k = config.Name U +:+ "-" +:+ before_at (traefik.Name R) ∧
        dynamic.Rule r = traefik.Rule R ∧
        dynamic.Service r = config.Name U +:+ "-traefik".
Proof.
  apply (published_router_provenance ApplyDefaults example.both_up example.federation).
  by_decision.
Defined.

(** X13: the revision of [aggregateUpstream] that copies from the upstream
    never reads the configured defaults: with any other defaults the
    cycle returns the same configuration, each published router having
    the entry points, middlewares and TLS configuration of a selected
    remote router that bears its key.  (The cycle is one that returns: no
    upstream returns a nil router.) *)
Theorem CopyUpstream_independent_of_defaults env cfg d :
  Forall (nil_free env (New cfg)) (config.Upstreams cfg) →
  ∃ out,
    Aggregate CopyUpstream env (New cfg) = Some (out, None) ∧
    Aggregate CopyUpstream env (New (with_defaults cfg d)) = Some (out, None) ∧
    ∀ k r, dynamic.Routers out !! k = Some r →
      ∃ U R, U ∈ config.Upstreams cfg ∧ R ∈ selected env (New cfg) U ∧
             k = routerName U R ∧
             dynamic.EntryPoints r = traefik.EntryPoints R ∧
             dynamic.Middlewares r = traefik.Middlewares R ∧
             dynamic.TLS r = traefik.TLS R.
Proof.
  intros Hnf. eexists. split; [by apply Aggregate_New|]. split.
  - rewrite Aggregate_New by exact Hnf.
    change (config.Upstreams (with_defaults cfg d)) with (config.Upstreams cfg).
    assert (Hsel : ∀ u, selected env (New (with_defaults cfg d)) u
                        = selected env (New cfg) u) by done.
    assert (Hr : ∀ ups, routerEntries CopyUpstream env (New (with_defaults cfg d)) ups
                        = routerEntries CopyUpstream env (New cfg) ups).
    { induction ups as [|u ups IH]; [done|].
      by rewrite !routerEntries_cons, IH, Hsel. }
    assert (Hs : ∀ ups, serviceEntries env (New (with_defaults cfg d)) ups
                        = serviceEntries env (New cfg) ups).
    { induction ups as [|u ups IH]; [done|].
      by rewrite !serviceEntries_cons, IH, Hsel. }
    by rewrite Hr, Hs.
  - intros k r Hk.
    destruct (published_router_inv _ _ _ _ _ _ _
                (Aggregate_New CopyUpstream env cfg Hnf) Hk)
      as (U & R & HU & HR & -> & ->).
    exists U, R. split_and!; try done. simpl. by destruct (traefik.TLS R).
Qed.

Lemma CopyUpstream_independent_of_defaults_witness :
  ∃ out,
    Aggregate CopyUpstream example.both_up (New example.federation) = Some (out, None) ∧
    Aggregate CopyUpstream example.both_up (New example.plain) = Some (out, None) ∧
    ∀ k r, dynamic.Routers out !! k = Some r →
      ∃ U R, U ∈ config.Upstreams example.federation ∧
             R ∈ selected example.both_up (New example.federation) U ∧
             k = routerName U R ∧
             dynamic.EntryPoints r = traefik.EntryPoints R ∧
             dynamic.Middlewares r = traefik.Middlewares R ∧
             dynamic.TLS r = traefik.TLS R.
Proof.
  apply (CopyUpstream_independent_of_defaults example.both_up example.federation
           example.noDefaults).
  by_decision.
Defined.

Lemma size_list_to_map_le {V} (l : list (string * V)) :
  (size (list_to_map l : gmap string V) ≤ length l)%nat.
Proof.
  induction l as [|[k v] l IH]; simpl; [by rewrite map_size_empty|].
  destruct ((list_to_map l : gmap string V) !! k) as [v'|] eqn:E.
  - rewrite map_size_insert_Some by done. lia.
  - rewrite map_size_insert_None by done. lia.
Qed.

(** X14: a cycle in which no upstream returns a nil router returns a
    configuration, and publishes in it at most one router per selected
    router and at most one service per configured upstream. *)
Theorem published_counts rev env cfg :
  Forall (nil_free env (New cfg)) (config.Upstreams cfg) →
  ∃ out,
    Aggregate rev env (New cfg) = Some (out, None) ∧
    (size (dynamic.Routers out)
       ≤ length (publishedKeys env (New cfg) (config.Upstreams cfg)))%nat ∧
    (size (dynamic.Services out) ≤ length (config.Upstreams cfg))%nat.
Proof.
  intros Hnf. eexists. split; [by apply Aggregate_New|].
  cbn [dynamic.Routers dynamic.Services]. split.
  - etrans; [apply size_list_to_map_le|].
    by rewrite length_reverse, <- (routerEntries_keys rev), length_fmap.
  - etrans; [apply size_list_to_map_le|]. rewrite length_reverse. clear Hnf.
    induction (config.Upstreams cfg) as [|u ups IH]; [done|].
    rewrite serviceEntries_cons, length_app. case_bool_decide; simpl; lia.
Qed.

Lemma published_counts_witness :
  ∃ out,
    Aggregate ApplyDefaults example.twins
      (New (example.cfg [example.host1] "" "enabled" example.noDefaults))
    = Some (out, None) ∧
    (size (dynamic.Routers out) ≤ 2)%nat ∧
    (size (dynamic.Services out) ≤ 1)%nat.
Proof.
  apply (published_counts ApplyDefaults example.twins
           (example.cfg [example.host1] "" "enabled" example.noDefaults)).
  by_decision.
Defined.

Lemma lookup_list_to_map_reverse_last {V} (l1 l2 : list (string * V)) k v :
  k ∉ l2.*1 →
  (list_to_map (reverse (l1 ++ (k, v) :: l2)) : gmap string V) !! k = Some v.
Proof.
  intros Hk. rewrite reverse_app, reverse_cons, <- app_assoc, list_to_map_app.
  rewrite lookup_union_r.
  - simpl. by rewrite lookup_insert_eq.
  - apply not_elem_of_list_to_map_1. by rewrite fmap_reverse, elem_of_reverse.
Qed.

(** X15: where several selected routers get the same key, the later write
    wins: a selected router is the one published under its key unless a
    later selected router of the same upstream, or a selected router of an
    upstream later in the configuration, has the same key.  (The cycle is
    one that returns: no upstream returns a nil router.) *)
Theorem later_survivor_wins rev env cfg l1 U l2 s1 R s2 :
  Forall (nil_free env (New cfg)) (config.Upstreams cfg) →
  config.Upstreams cfg = l1 ++ U :: l2 →
  selected env (New cfg) U = s1 ++ R :: s2 →
  routerName U R ∉ routerName U <$> s2 →
  routerName U R ∉ publishedKeys env (New cfg) l2 →
  ∃ out,
    Aggregate rev env (New cfg) = Some (out, None) ∧
    dynamic.Routers out !! routerName U R
    = Some (newRouter rev (New cfg) R (serviceName U)).
Proof.
  intros Hnf Hups Hsel Hs2 Hl2. eexists. split; [by apply Aggregate_New|].
  cbn [dynamic.Routers]. rewrite Hups, routerEntries_app, routerEntries_cons, Hsel.
  rewrite fmap_app, fmap_cons, <- !app_assoc. cbn [app].
  rewrite (app_assoc (routerEntries rev env (New cfg) l1)).
  apply lookup_list_to_map_reverse_last.
  rewrite fmap_app, elem_of_app, routerEntries_keys, <- list_fmap_compose.
  intros [?|?]; [by apply Hs2|by apply Hl2].
Qed.

(** Of "web@docker" and "web@file", both published as "host1-web", the
    second, which the upstream lists later, is the one in the output. *)
Lemma later_survivor_wins_witness :
  ∃ out,
    Aggregate ApplyDefaults example.twins
      (New (example.cfg [example.host1] "" "enabled" example.noDefaults))
    = Some (out, None) ∧
    dynamic.Routers out !! "host1-web"
    = Some {| dynamic.EntryPoints := [];
              dynamic.Middlewares := [];
              dynamic.Service := "host1-traefik";
              dynamic.Rule := "Host(`b.example.com`)";
              dynamic.TLS := None |}.
Proof.
  apply (later_survivor_wins ApplyDefaults example.twins
           (example.cfg [example.host1] "" "enabled" example.noDefaults)
           [] example.host1 [] [example.web_docker] example.web_file []).
  - by_decision.
  - reflexivity.
  - by_evaluation.
  - by_decision.
  - by_decision.
Defined.

(** X16: [New] keeps one client per upstream name, that of the last upstream
    of that name: every upstream of the name, whatever its own admin URL,
    is fetched from there. *)
Theorem New_last_upstream_owns_name env cfg l1 u l2 :
  config.Upstreams cfg = l1 ++ u :: l2 →
  config.Name u ∉ config.Name <$> l2 →
  clients (New cfg) !! config.Name u
  = Some (traefik.NewClient (GoStrings.TrimSuffix (config.AdminURL u) "/" +:+ "/api")) ∧
  ∀ u', u' ∈ config.Upstreams cfg → config.Name u' = config.Name u →
        fetch env (New cfg) u'
        = Some (traefik.GetRouters env
                  (traefik.NewClient
                     (GoStrings.TrimSuffix (config.AdminURL u) "/" +:+ "/api"))).
Proof.
  intros Hups Hl2.
  assert (Hc : clients (New cfg) !! config.Name u
               = Some (traefik.NewClient
                         (GoStrings.TrimSuffix (config.AdminURL u) "/" +:+ "/api"))).
  { rewrite New_clients, Hups, fmap_app, fmap_cons.
    apply (lookup_list_to_map_reverse_last _ _ (config.Name u)).
    by rewrite <- list_fmap_compose. }
  split; [exact Hc|]. intros u' _ Hname. unfold fetch. by rewrite Hname, Hc.
Qed.

Lemma New_last_upstream_owns_name_witness :
  fetch example.both_up
    (New (example.cfg [example.host1; example.host2; example.host1_moved]
            "docker" "enabled" example.noDefaults))
    example.host1
  = Some (traefik.GetRouters example.both_up
            (traefik.NewClient "http://10.0.0.9:8080/api")) ∧
  traefik.GetRouters example.both_up (traefik.NewClient "http://10.0.0.9:8080/api")
  = inr (wrapError "failed to fetch routers" (opaqueError "connection refused")).
Proof.
  split; [|by_evaluation].
  apply (New_last_upstream_owns_name example.both_up
           (example.cfg [example.host1; example.host2; example.host1_moved]
              "docker" "enabled" example.noDefaults)
           [example.host1; example.host2] example.host1_moved []).
  - reflexivity.
  - by_decision.
  - by_decision.
  - reflexivity.
Defined.

End cycle.

(** ** The URL a client asks *)

Section urls.
Import GoStrings aggregator props.

Lemma substring_0_length (t : string) : String.substring 0 (String.length t) t = t.
Proof. induction t as [|c t IH]; [done|]. simpl. by rewrite IH. Qed.

Lemma substring_0_app (p t : string) :
  String.substring 0 (String.length p) (p +:+ t) = p.
Proof.
  induction p as [|c p IH]; simpl; [by destruct t|]. by rewrite IH.
Qed.

Lemma substring_length_app (p t : string) :
  String.substring (String.length p) (String.length t) (p +:+ t) = t.
Proof. induction p as [|c p IH]; simpl; [apply substring_0_length|done]. Qed.

Lemma substring_split (s : string) (n : nat) :
  (n ≤ String.length s)%nat →
  s = String.substring 0 n s +:+ String.substring n (String.length s - n) s.
Proof.
  revert n. induction s as [|c s IH]; intros [|n] Hn; simpl in *; try lia.
  - done.
  - by rewrite substring_0_length.
  - change (String c s
            = String c (String.substring 0 n s
                        +:+ String.substring n (String.length s - n) s)).
    f_equal. apply IH. lia.
Qed.

Lemma HasSuffix_app (p t : string) : HasSuffix (p +:+ t) t = true.
Proof.
  unfold HasSuffix, slice_from, len. rewrite length_append.
  rewrite bool_decide_true by lia. rewrite bool_decide_true; [done|].
  replace (Z.to_nat (Z.of_nat (String.length p + String.length t)
                     - Z.of_nat (String.length t))) with (String.length p) by lia.
  replace (String.length p + String.length t - String.length p)%nat
    with (String.length t) by lia.
  apply substring_length_app.
Qed.

Lemma HasSuffix_inv (s t : string) : HasSuffix s t = true → ∃ p, s = p +:+ t.
Proof.
  unfold HasSuffix, slice_from, len.
  intros [Hlen Hsuf]%andb_true_iff.
  apply bool_decide_eq_true in Hlen. apply bool_decide_eq_true in Hsuf.
  exists (String.substring 0 (Z.to_nat (Z.of_nat (String.length s)
                                        - Z.of_nat (String.length t))) s).
  etrans; [apply (substring_split s (Z.to_nat (Z.of_nat (String.length s)
                                               - Z.of_nat (String.length t)))); lia|].
  by rewrite Hsuf.
Qed.

(** [TrimSuffix] removes the suffix, once. *)
Lemma TrimSuffix_app (p t : string) : TrimSuffix (p +:+ t) t = p.
Proof.
  unfold TrimSuffix. rewrite HasSuffix_app. unfold slice_to, len.
  rewrite length_append.
  replace (Z.to_nat (Z.of_nat (String.length p + String.length t)
                     - Z.of_nat (String.length t))) with (String.length p) by lia.
  apply substring_0_app.
Qed.

Lemma TrimSuffix_none (s t : string) : (∀ p, s ≠ p +:+ t) → TrimSuffix s t = s.
Proof.
  intros Hs. unfold TrimSuffix. destruct (HasSuffix s t) eqn:E; [|done].
  apply HasSuffix_inv in E as [p ->]. by destruct (Hs p).
Qed.

(** X17: the client of an upstream asks the admin URL followed by
    "/api/http/routers", one trailing "/" of the admin URL being dropped
    first: an admin URL with and without a trailing "/" name the same
    endpoint, and of two trailing "/" one stays. *)
Theorem New_drops_one_trailing_slash env cfg u :
  NoDup (config.Name <$> config.Upstreams cfg) →
  u ∈ config.Upstreams cfg →
  (∀ s, config.AdminURL u = s +:+ "/" →
        fetch env (New cfg) u
        = Some (traefik.GetRouters env (traefik.NewClient (s +:+ "/api")))) ∧
  ((∀ s, config.AdminURL u ≠ s +:+ "/") →
   fetch env (New cfg) u
   = Some (traefik.GetRouters env
             (traefik.NewClient (config.AdminURL u +:+ "/api")))).
Proof.
  intros Hnd Hu. unfold fetch. rewrite (New_client_own cfg u Hnd Hu). unfold apiURL.
  split.
  - intros s ->. by rewrite TrimSuffix_app.
  - intros Hs. by rewrite TrimSuffix_none.
Qed.

Lemma New_drops_one_trailing_slash_witness :
  config.AdminURL example.host1 = "http://10.0.0.1:8080" +:+ "/" ∧
  fetch example.both_up (New example.federation) example.host1
  = Some (traefik.GetRouters example.both_up
            (traefik.NewClient "http://10.0.0.1:8080/api")) ∧
  fetch example.both_up (New example.federation) example.host2
  = Some (traefik.GetRouters example.both_up
            (traefik.NewClient "http://10.0.0.2:8080/api")).
Proof.
  assert (Hnd : NoDup (config.Name <$> config.Upstreams example.federation))
    by by_decision.
  assert (H1 : example.host1 ∈ config.Upstreams example.federation) by by_decision.
  assert (H2 : example.host2 ∈ config.Upstreams example.federation) by by_decision.
  split; [reflexivity|]. split.
  - destruct (New_drops_one_trailing_slash example.both_up example.federation
                example.host1 Hnd H1) as [Hslash _].
    apply (Hslash "http://10.0.0.1:8080"). reflexivity.
  - destruct (New_drops_one_trailing_slash example.both_up example.federation
                example.host2 Hnd H2) as [_ Hnone].
    apply Hnone. intros s Hs.
    pose proof (HasSuffix_app s "/") as Hsuffix. rewrite <- Hs in Hsuffix.
    vm_compute in Hsuffix. discriminate Hsuffix.
Defined.

End urls.

(** ** The file writer *)

Section file_writer.
Import output props.
Context (yamlEncode : dynamic.HTTPConfiguration → string) (w : FileWriter).

Lemma tmpPath_ne : tmpPath w ≠ writer_path w.
Proof.
  unfold tmpPath. intros E. apply (f_equal String.length) in E.
  rewrite length_append in E. simpl in E. lia.
Qed.

Lemma writeConfig_clean o config files :
  all_succeed o →
  writeConfig yamlEncode w o config files
  = (<[writer_path w := yamlEncode config]> (delete (tmpPath w) files), None).
Proof. intros H. unfold writeConfig. by rewrite !H. Qed.

(** A write that reports an error has changed the temporary file at most. *)
Lemma writeConfig_failed o config files err :
  (writeConfig yamlEncode w o config files).2 = Some err →
  ∀ p, p ≠ tmpPath w → (writeConfig yamlEncode w o config files).1 !! p = files !! p.
Proof.
  unfold writeConfig, tmpPath.
  destruct (fails o MkdirAll); [done|].
  destruct (fails o Create); [done|].
  destruct (fails o Encode); [intros _ p Hp; simpl; by rewrite lookup_insert_ne|].
  destruct (fails o EncoderClose); [intros _ p Hp; simpl; by rewrite lookup_insert_ne|].
  destruct (fails o FileClose); [intros _ p Hp; simpl; by rewrite lookup_insert_ne|].
  destruct (fails o Rename); [intros _ p Hp; simpl; by rewrite lookup_insert_ne|].
  done.
Qed.

Lemma writeConfig_None o config files :
  (writeConfig yamlEncode w o config files).2 = None → all_succeed o.
Proof.
  unfold writeConfig.
  destruct (fails o MkdirAll) eqn:E1; [done|].
  destruct (fails o Create) eqn:E2; [done|].
  destruct (fails o Encode) eqn:E3; [done|].
  destruct (fails o EncoderClose) eqn:E4; [done|].
  destruct (fails o FileClose) eqn:E5; [done|].
  destruct (fails o Rename) eqn:E6; [done|].
  intros _ []; done.
Qed.

(** Whatever the outcome, the target holds afterwards what it held before
    or the whole document, and no file but the target and the temporary
    file has changed. *)
Lemma writeConfig_target o config files :
  ((writeConfig yamlEncode w o config files).1 !! writer_path w = files !! writer_path w
   ∨ (writeConfig yamlEncode w o config files).1 !! writer_path w
     = Some (yamlEncode config)) ∧
  ∀ p, p ≠ writer_path w → p ≠ tmpPath w →
       (writeConfig yamlEncode w o config files).1 !! p = files !! p.
Proof.
  destruct ((writeConfig yamlEncode w o config files).2) as [err|] eqn:E.
  - split.
    + left. apply (writeConfig_failed _ _ _ err E). intros E'. by apply tmpPath_ne.
    + intros p _ Hp. by apply (writeConfig_failed _ _ _ err E).
  - apply writeConfig_None in E. rewrite writeConfig_clean by done. simpl. split.
    + right. by rewrite lookup_insert_eq.
    + intros p Hp Ht. by rewrite lookup_insert_ne, lookup_delete_ne.
Qed.

Lemma Start_snoc initial events e files0 :
  Start yamlEncode w initial (events ++ [e]) files0
  = Start_case yamlEncode w (Start yamlEncode w initial events files0) e.
Proof. unfold Start. by rewrite foldl_app. Qed.

Lemma received_snoc initial events e :
  received initial (events ++ [e])
  = received initial events
    ++ match e.1 with Received config => [config] | Tick => [] end.
Proof.
  unfold received. rewrite omap_app, (assoc_L (++)). f_equal.
  simpl. by destruct e.1.
Qed.

(** The variable [currentConfig] is the configuration received last. *)
Lemma Start_currentConfig initial events files0 :
  currentConfig (Start yamlEncode w initial events files0)
  = last (received initial events).
Proof.
  induction events as [|e events IH] using rev_ind.
  - by destruct initial as [[config o]|].
  - rewrite Start_snoc, received_snoc. destruct e as [[config|] o]; simpl.
    + by rewrite last_snoc.
    + rewrite app_nil_r, <- IH. unfold Start_case; simpl.
      by destruct (currentConfig (Start yamlEncode w initial events files0)) eqn:E.
Qed.

(** X18: [writeConfig] replaces the target file atomically.  It returns
    nil exactly when none of its six calls fails, and then the target
    holds the document of the configuration and the temporary file is
    gone; when it returns an error the target holds what it held before.
    Either way no file besides the target and the temporary file changes. *)
Theorem writeConfig_atomic o config files :
  ((writeConfig yamlEncode w o config files).2 = None ↔ all_succeed o) ∧
  ((writeConfig yamlEncode w o config files).2 = None →
   (writeConfig yamlEncode w o config files).1 !! writer_path w
   = Some (yamlEncode config) ∧
   (writeConfig yamlEncode w o config files).1 !! tmpPath w = None) ∧
  ((writeConfig yamlEncode w o config files).2 ≠ None →
   (writeConfig yamlEncode w o config files).1 !! writer_path w
   = files !! writer_path w) ∧
  (∀ p, p ≠ writer_path w → p ≠ tmpPath w →
        (writeConfig yamlEncode w o config files).1 !! p = files !! p).
Proof.
  split_and!.
  - split; [apply writeConfig_None|]. intros H. by rewrite writeConfig_clean.
  - intros H%writeConfig_None. rewrite writeConfig_clean by done. simpl. split.
    + by rewrite lookup_insert_eq.
    + rewrite lookup_insert_ne by (intros E; by apply tmpPath_ne).
      by rewrite lookup_delete_eq.
  - intros H. destruct ((writeConfig yamlEncode w o config files).2) as [err|] eqn:E;
      [|done].
    apply (writeConfig_failed _ _ _ err E). intros E'. by apply tmpPath_ne.
  - apply writeConfig_target.
Qed.

(** X19: whatever fails and in whatever order configurations and ticks
    arrive, the target file of [Start] holds what it held at the start or
    the whole document of a configuration received from the channel, and
    no file besides the target and the temporary file changes. *)
Theorem Start_file_is_received_config initial events files0 :
  (files (Start yamlEncode w initial events files0) !! writer_path w
   = files0 !! writer_path w
   ∨ ∃ config, config ∈ received initial events ∧
       files (Start yamlEncode w initial events files0) !! writer_path w
       = Some (yamlEncode config)) ∧
  ∀ p, p ≠ writer_path w → p ≠ tmpPath w →
       files (Start yamlEncode w initial events files0) !! p = files0 !! p.
Proof.
  induction events as [|e events [IHt IHo]] using rev_ind.
  - destruct initial as [[config o]|]; unfold Start; simpl; [|by split; [left|]].
    destruct (writeConfig_target o config files0) as [[Ht|Ht] Ho].
    + split; [by left|done].
    + split; [right; exists config; split; [by left|done]|done].
  - assert (Hcur : ∀ config,
              currentConfig (Start yamlEncode w initial events files0) = Some config →
              config ∈ received initial events).
    { intros config. rewrite Start_currentConfig.
      intros (l' & ->)%last_Some. apply elem_of_app. right. by left. }
    assert (Hweak : ∀ config, config ∈ received initial events →
              config ∈ received initial (events ++ [e])).
    { intros config H. rewrite received_snoc. apply elem_of_app. by left. }
    assert (Hwrite : ∀ o config, config ∈ received initial (events ++ [e]) →
      ((writeConfig yamlEncode w o config
          (files (Start yamlEncode w initial events files0))).1 !! writer_path w
       = files0 !! writer_path w
       ∨ ∃ config', config' ∈ received initial (events ++ [e]) ∧
           (writeConfig yamlEncode w o config
              (files (Start yamlEncode w initial events files0))).1 !! writer_path w
           = Some (yamlEncode config')) ∧
      ∀ p, p ≠ writer_path w → p ≠ tmpPath w →
           (writeConfig yamlEncode w o config
              (files (Start yamlEncode w initial events files0))).1 !! p
           = files0 !! p).
    { intros o config Hin.
      destruct (writeConfig_target o config
                  (files (Start yamlEncode w initial events files0))) as [[Ht|Ht] Ho].
      - split.
        + rewrite Ht. destruct IHt as [IHt|(config' & Hin' & IHt)]; [by left|].
          right. exists config'. split; [by apply Hweak|done].
        + intros p Hp Hq. rewrite Ho by done. by apply IHo.
      - split.
        + right. by exists config.
        + intros p Hp Hq. rewrite Ho by done. by apply IHo. }
    rewrite Start_snoc. destruct e as [[config|] o]; unfold Start_case; simpl.
    + apply Hwrite. rewrite received_snoc. apply elem_of_app. right. by left.
    + destruct (currentConfig (Start yamlEncode w initial events files0))
        as [config|] eqn:E; simpl.
      * apply Hwrite, Hweak, Hcur. done.
      * split; [|done]. destruct IHt as [IHt|(config' & Hin' & IHt)]; [by left|].
        right. exists config'. split; [by apply Hweak|done].
Qed.

(** X20: until a configuration arrives from the channel, the ticks of
    [Start] write nothing: the files are as they were. *)
Theorem Start_idle_until_first_config initial events files0 :
  received initial events = [] →
  Start yamlEncode w initial events files0
  = {| currentConfig := None; files := files0 |}.
Proof.
  induction events as [|e events IH] using rev_ind.
  - by destruct initial as [[config o]|].
  - rewrite received_snoc. intros [Hr He]%app_eq_nil.
    rewrite Start_snoc, IH by done. by destruct e as [[config|] o].
Qed.

(** X21: a write of [Start] in which no call fails leaves in the target
    file the document of the configuration received last, whether the
    write is that of a receive or of a tick, and whatever failed before:
    the ticks repair a failed write. *)
Theorem Start_clean_write_is_latest initial events e o files0 config :
  all_succeed o →
  last (received initial (events ++ [(e, o)])) = Some config →
  files (Start yamlEncode w initial (events ++ [(e, o)]) files0) !! writer_path w
  = Some (yamlEncode config) ∧
  files (Start yamlEncode w initial (events ++ [(e, o)]) files0) !! tmpPath w = None.
Proof.
  intros Hok Hlast. rewrite received_snoc in Hlast. rewrite Start_snoc.
  assert (Hclean : ∀ files1,
    (writeConfig yamlEncode w o config files1).1 !! writer_path w
    = Some (yamlEncode config) ∧
    (writeConfig yamlEncode w o config files1).1 !! tmpPath w = None).
  { intros files1. rewrite writeConfig_clean by done. simpl.
    rewrite lookup_insert_eq. split; [done|].
    rewrite lookup_insert_ne by (intros E; by apply tmpPath_ne).
    by rewrite lookup_delete_eq. }
  destruct e as [config'|]; unfold Start_case; simpl in *.
  - rewrite last_snoc in Hlast. injection Hlast as ->. apply Hclean.
  - rewrite app_nil_r, <- (Start_currentConfig initial events files0) in Hlast.
    rewrite Hlast. simpl. apply Hclean.
Qed.

End file_writer.

Section file_writer_instances.
Import output props.

Lemma Start_idle_until_first_config_witness :
  Start example.yamlEncode example.writer None
    [(Tick, example.disk_ok); (Tick, example.disk_full)]
    {[ "/etc/traefik/dynamic/federation.yml" := "http: {}" ]}
  = {| currentConfig := None;
       files := {[ "/etc/traefik/dynamic/federation.yml" := "http: {}" ]} |}.
Proof.
  apply (Start_idle_until_first_config example.yamlEncode example.writer None
           [(Tick, example.disk_ok); (Tick, example.disk_full)]).
  reflexivity.
Defined.

Lemma Start_clean_write_is_latest_witness :
  files (Start example.yamlEncode example.writer None
           ([(Received (snapshot aggregator.ApplyDefaults example.both_up
                          example.federation), example.rename_denied)]
            ++ [(Tick, example.disk_ok)]) ∅)
    !! "/etc/traefik/dynamic/federation.yml"
  = Some "http: host1-webapp,host1-memos,host2-api" ∧
  files (Start example.yamlEncode example.writer None
           ([(Received (snapshot aggregator.ApplyDefaults example.both_up
                          example.federation), example.rename_denied)]
            ++ [(Tick, example.disk_ok)]) ∅)
    !! "/etc/traefik/dynamic/federation.yml.tmp"
  = None.
Proof.
  assert (Hok : all_succeed example.disk_ok) by (intros c; reflexivity).
  destruct (Start_clean_write_is_latest example.yamlEncode example.writer None
              [(Received (snapshot aggregator.ApplyDefaults example.both_up
                            example.federation), example.rename_denied)]
              Tick example.disk_ok ∅
              (snapshot aggregator.ApplyDefaults example.both_up example.federation)
              Hok eq_refl) as [Ht Htmp].
  split.
  - etrans; [exact Ht|]. by_evaluation.
  - exact Htmp.
Defined.

End file_writer_instances.

(** ** The scheduler, the sinks and the file writer together *)

Section scheduler.
Import aggregator props.
Context (rev : revision) (cfg : config.Config)
        (yamlEncode : dynamic.HTTPConfiguration → string) (w : output.FileWriter).

(** [runAggregation] on an aggregator built by [New], when no upstream
    returns a nil router: each sink that is not nil is handed the cycle's
    snapshot. *)
Lemma runAggregation_New env s :
  Forall (nil_free env (New cfg)) (config.Upstreams cfg) →
  main.runAggregation rev env (New cfg) s
  = Some {| main.httpServer :=
              (fun srv => output.UpdateConfig srv (snapshot rev env cfg))
                <$> main.httpServer s;
            main.fileConfigChan :=
              (fun ch => main.select_send_default ch (snapshot rev env cfg))
                <$> main.fileConfigChan s |}.
Proof.
  intros Hnf. unfold main.runAggregation, snapshot. rewrite Aggregate_New by done.
  by destruct (main.httpServer s), (main.fileConfigChan s).
Qed.

(** It returns in no other case. *)
Lemma runAggregation_New_inv env s s' :
  main.runAggregation rev env (New cfg) s = Some s' →
  Forall (nil_free env (New cfg)) (config.Upstreams cfg) ∧
  s' = {| main.httpServer :=
            (fun srv => output.UpdateConfig srv (snapshot rev env cfg))
              <$> main.httpServer s;
          main.fileConfigChan :=
            (fun ch => main.select_send_default ch (snapshot rev env cfg))
              <$> main.fileConfigChan s |}.
Proof.
  intros Hrun.
  destruct (decide (Forall (nil_free env (New cfg)) (config.Upstreams cfg))) as [Hnf|Hnf].
  - split; [done|]. rewrite runAggregation_New in Hrun by done. congruence.
  - unfold main.runAggregation in Hrun. by rewrite Aggregate_New_panics in Hrun.
Qed.

Lemma run_app actions1 actions2 st :
  system.run rev (New cfg) yamlEncode w (actions1 ++ actions2) st
  = system.run rev (New cfg) yamlEncode w actions1 st
      ≫= system.run rev (New cfg) yamlEncode w actions2.
Proof.
  revert st. induction actions1 as [|a actions1 IH]; intros st; [done|].
  simpl. destruct (system.step _ _ _ _ _ _); [apply IH|done].
Qed.

Lemma snapshots_app actions1 actions2 :
  snapshots rev cfg (actions1 ++ actions2)
  = snapshots rev cfg actions1 ++ snapshots rev cfg actions2.
Proof. apply omap_app. Qed.

(** What holds of every state the program reaches from its start. *)
Lemma reachable actions files0 st0 st :
  system.initial cfg files0 = Some st0 →
  system.run rev (New cfg) yamlEncode w actions st0 = Some st →
  main.httpServer (system.sinks st)
  = (if config.HTTP_Enabled (config.HTTP (config.Output cfg))
     then Some {| output.port := config.HTTP_Port (config.HTTP (config.Output cfg));
                  output.path := config.HTTP_Path (config.HTTP (config.Output cfg));
                  output.config :=
                    default emptyConfig (last (snapshots rev cfg actions)) |}
     else None) ∧
  (∃ pending,
     main.fileConfigChan (system.sinks st)
     = (if config.File_Enabled (config.File (config.Output cfg))
        then Some {| channel.cap := 1; channel.buf := pending |}
        else None) ∧
     (length pending ≤ 1)%nat ∧
     ∀ c, c ∈ pending → c ∈ snapshots rev cfg actions) ∧
  (∀ c, output.currentConfig (system.writer st) = Some c →
        c ∈ snapshots rev cfg actions) ∧
  (output.files (system.writer st) !! output.writer_path w
   = files0 !! output.writer_path w
   ∨ ∃ c, c ∈ snapshots rev cfg actions ∧
          output.files (system.writer st) !! output.writer_path w
          = Some (yamlEncode c)) ∧
  (∀ p, p ≠ output.writer_path w → p ≠ tmpPath w →
        output.files (system.writer st) !! p = files0 !! p).
Proof.
  intros Hinit. revert st. induction actions as [|a actions IH] using rev_ind; intros st.
  - intros [= <-]. revert Hinit. unfold system.initial.
    destruct (GoTime.NewTicker _); [|done]. intros [= <-].
    unfold main.setup. simpl. split_and!.
    + done.
    + exists []. split_and!; [done|simpl; lia|]. intros c Hc. by apply elem_of_nil in Hc.
    + done.
    + by left.
    + done.
  - rewrite run_app.
    destruct (system.run rev (New cfg) yamlEncode w actions st0) as [st1|] eqn:Hrun;
      [|done].
    destruct (IH st1 eq_refl)
      as (Hhttp & (pending & Hchan & Hlen & Hpend) & Hcur & Hfile & Hother).
    rewrite snapshots_app. simpl.
    assert (Hweak : ∀ c l, c ∈ snapshots rev cfg actions →
                           c ∈ snapshots rev cfg actions ++ l).
    { intros c l Hc. apply elem_of_app. by left. }
    assert (Hwrite : ∀ o c l, c ∈ snapshots rev cfg actions ++ l →
      ((output.writeConfig yamlEncode w o c (output.files (system.writer st1))).1
         !! output.writer_path w
       = files0 !! output.writer_path w
       ∨ ∃ c', c' ∈ snapshots rev cfg actions ++ l ∧
           (output.writeConfig yamlEncode w o c (output.files (system.writer st1))).1
             !! output.writer_path w
           = Some (yamlEncode c')) ∧
      ∀ p, p ≠ output.writer_path w → p ≠ tmpPath w →
           (output.writeConfig yamlEncode w o c (output.files (system.writer st1))).1 !! p
           = files0 !! p).
    { intros o c l Hc.
      destruct (writeConfig_target yamlEncode w o c (output.files (system.writer st1)))
        as [[Ht|Ht] Ho].
      - split.
        + rewrite Ht. destruct Hfile as [Hfile|(c' & Hc' & Hfile)]; [by left|].
          right. exists c'. split; [by apply Hweak|done].
        + intros p Hp Hq. rewrite Ho by done. by apply Hother.
      - split; [right; by exists c|].
        intros p Hp Hq. rewrite Ho by done. by apply Hother. }
    assert (Hnoop :
      main.httpServer (system.sinks st1)
      = (if config.HTTP_Enabled (config.HTTP (config.Output cfg))
         then Some {| output.port := config.HTTP_Port (config.HTTP (config.Output cfg));
                      output.path := config.HTTP_Path (config.HTTP (config.Output cfg));
                      output.config :=
                        default emptyConfig (last (snapshots rev cfg actions ++ [])) |}
         else None) ∧
      (∃ pending0,
         main.fileConfigChan (system.sinks st1)
         = (if config.File_Enabled (config.File (config.Output cfg))
            then Some {| channel.cap := 1; channel.buf := pending0 |}
            else None) ∧
         (length pending0 ≤ 1)%nat ∧
         ∀ c, c ∈ pending0 → c ∈ snapshots rev cfg actions ++ []) ∧
      (∀ c, output.currentConfig (system.writer st1) = Some c →
            c ∈ snapshots rev cfg actions ++ []) ∧
      (output.files (system.writer st1) !! output.writer_path w
       = files0 !! output.writer_path w
       ∨ ∃ c, c ∈ snapshots rev cfg actions ++ [] ∧
              output.files (system.writer st1) !! output.writer_path w
              = Some (yamlEncode c)) ∧
      (∀ p, p ≠ output.writer_path w → p ≠ tmpPath w →
            output.files (system.writer st1) !! p = files0 !! p)).
    { rewrite app_nil_r. split_and!; try done. by exists pending. }
    destruct a as [env| |o|o]; simpl.
    + destruct (main.runAggregation rev env (New cfg) (system.sinks st1)) as [s1|] eqn:Hs1;
        [|done].
      apply runAggregation_New_inv in Hs1 as [_ ->]. intros [= <-]. simpl.
      rewrite last_snoc. simpl. split_and!.
      * rewrite Hhttp. by destruct (config.HTTP_Enabled _).
      * rewrite Hchan. destruct (config.File_Enabled _); simpl.
        -- unfold main.select_send_default, channel.send. simpl.
           case_bool_decide as Hroom.
           ++ exists (pending ++ [snapshot rev env cfg]). split_and!; [done| |].
              ** rewrite length_app. simpl. lia.
              ** intros c [Hc|Hc%list_elem_of_singleton]%elem_of_app;
                   apply elem_of_app; [left; by apply Hpend|right; subst; by left].
           ++ exists pending. split_and!; [done|done|].
              intros c Hc. apply Hweak. by apply Hpend.
        -- exists []. split_and!; [done|simpl; lia|].
           intros c Hc. by apply elem_of_nil in Hc.
      * intros c Hc. apply Hweak. by apply Hcur.
      * destruct Hfile as [Hfile|(c & Hc & Hfile)]; [by left|].
        right. exists c. split; [by apply Hweak|done].
      * done.
    + destruct (main.fileConfigChan (system.sinks st1)) as [ch|] eqn:Hch;
        [|intros [= <-]; first [exact Hnoop | rewrite Hch; exact Hnoop]].
      destruct (system.started st1);
        [intros [= <-]; first [exact Hnoop | rewrite Hch; exact Hnoop]|].
      destruct (GoTime.NewTicker _); [|done]. intros [= <-]. simpl.
      first [exact Hnoop | rewrite Hch; exact Hnoop].
    + destruct (system.started st1); [|intros [= <-]; first [exact Hnoop | rewrite Hch; exact Hnoop]].
      destruct (main.fileConfigChan (system.sinks st1)) as [ch|] eqn:Hch;
        [|intros [= <-]; first [exact Hnoop | rewrite Hch; exact Hnoop]].
      destruct (channel.recv ch) as [[c ch']|] eqn:Hrecv;
        [|intros [= <-]; first [exact Hnoop | rewrite Hch; exact Hnoop]].
      intros [= <-]. simpl. rewrite app_nil_r in *.
      destruct (config.File_Enabled _); [|done]. injection Hchan as ->.
      unfold channel.recv in Hrecv. simpl in Hrecv.
      destruct pending as [|c0 rest]; [done|]. injection Hrecv as -> <-.
      split_and!.
      * done.
      * exists rest. split_and!; [done|simpl in Hlen; lia|].
        intros c' Hc'. apply Hpend. by right.
      * intros c' [= <-]. apply Hpend. by left.
      * specialize (Hwrite o c [] ltac:(rewrite app_nil_r; apply Hpend; by left)).
        rewrite app_nil_r in Hwrite. apply Hwrite.
      * specialize (Hwrite o c [] ltac:(rewrite app_nil_r; apply Hpend; by left)).
        apply Hwrite.
    + destruct (system.started st1); [|intros [= <-]; first [exact Hnoop | rewrite Hch; exact Hnoop]].
      intros [= <-]. simpl. rewrite app_nil_r in *. unfold output.Start_case. simpl.
      destruct (output.currentConfig (system.writer st1)) as [c|] eqn:Hc; simpl.
      * specialize (Hwrite o c [] ltac:(rewrite app_nil_r; by apply Hcur)).
        rewrite app_nil_r in Hwrite.
        split_and!;
          first [done | by exists pending | by apply Hwrite
                | intros c' [= <-]; by apply Hcur].
      * split_and!; first [done | by exists pending | by rewrite Hc].
Qed.

(** X22: the HTTP sink is never behind.  With the HTTP output enabled, in
    every state the program reaches without panicking, through any
    interleaving of aggregations and file writer events, the server
    answers, on the configured port and path, with the snapshot of the
    latest aggregation (the empty configuration before the first), as
    JSON exactly when the Accept header is application/json or the query
    asks format=json, as YAML otherwise. *)
Theorem http_serves_latest_snapshot actions files0 st0 st :
  config.HTTP_Enabled (config.HTTP (config.Output cfg)) = true →
  system.initial cfg files0 = Some st0 →
  system.run rev (New cfg) yamlEncode w actions st0 = Some st →
  ∃ srv,
    main.httpServer (system.sinks st) = Some srv ∧
    output.port srv = config.HTTP_Port (config.HTTP (config.Output cfg)) ∧
    output.path srv = config.HTTP_Path (config.HTTP (config.Output cfg)) ∧
    ∀ r, output.handleConfig srv r
         = if bool_decide (output.Accept r = "application/json" ∨ output.format r = "json")
           then output.serveJSON (default emptyConfig (last (snapshots rev cfg actions)))
           else output.serveYAML (default emptyConfig (last (snapshots rev cfg actions))).
Proof.
  intros Hon Hinit Hrun. destruct (reachable actions files0 st0 st Hinit Hrun) as (Hhttp & _).
  rewrite Hon in Hhttp. eexists. split_and!; [done|done|done|].
  intros r. unfold output.handleConfig. simpl.
  repeat case_bool_decide; simpl; try done; exfalso; tauto.
Qed.

(** X23: the file sink never holds anything but a snapshot.  In every
    state the program reaches without panicking, through any interleaving
    of aggregations, deliveries and ticks, with any failures of the
    writes, the target file holds what it held at the start or the whole
    document of the snapshot of one of the aggregations run so far; the
    channel holds at most one snapshot; no file besides the target and
    the temporary file has changed. *)
Theorem file_holds_only_snapshots actions files0 st0 st :
  system.initial cfg files0 = Some st0 →
  system.run rev (New cfg) yamlEncode w actions st0 = Some st →
  (output.files (system.writer st) !! output.writer_path w
   = files0 !! output.writer_path w
   ∨ ∃ c, c ∈ snapshots rev cfg actions ∧
          output.files (system.writer st) !! output.writer_path w
          = Some (yamlEncode c)) ∧
  (∀ ch, main.fileConfigChan (system.sinks st) = Some ch →
         (length (channel.buf ch) ≤ 1)%nat ∧
         ∀ c, c ∈ channel.buf ch → c ∈ snapshots rev cfg actions) ∧
  (∀ p, p ≠ output.writer_path w → p ≠ tmpPath w →
        output.files (system.writer st) !! p = files0 !! p).
Proof.
  intros Hinit Hrun.
  destruct (reachable actions files0 st0 st Hinit Hrun)
    as (_ & (pending & Hchan & Hlen & Hpend) & _ & Hfile & Hother).
  split_and!; [done| |done].
  intros ch Hch. rewrite Hchan in Hch.
  destruct (config.File_Enabled _); [|done]. by injection Hch as <-.
Qed.

(** A run of aggregations against a full channel: the HTTP server follows,
    the channel and the file writer stay as they are. *)
Lemma cycles_full_slot envs st ch c :
  Forall (fun env => Forall (nil_free env (New cfg)) (config.Upstreams cfg)) envs →
  main.fileConfigChan (system.sinks st) = Some ch →
  channel.cap ch = 1%nat →
  channel.buf ch = [c] →
  ∀ env0,
  system.run rev (New cfg) yamlEncode w (system.Cycle <$> envs) st
  = Some {| system.sinks :=
              {| main.httpServer :=
                   match envs with
                   | [] => main.httpServer (system.sinks st)
                   | _ => (fun srv => output.UpdateConfig srv
                                        (snapshot rev (default env0 (last envs)) cfg))
                            <$> main.httpServer (system.sinks st)
                   end;
                 main.fileConfigChan := Some ch |};
            system.started := system.started st;
            system.writer := system.writer st |}.
Proof.
  intros Hnf Hch Hcap Hbuf env0. revert st Hch.
  induction envs as [|env envs IH]; intros st Hch.
  - simpl. destruct st as [[h f] b wr]. simpl in *. by rewrite Hch.
  - apply Forall_cons in Hnf as [Hnf1 Hnf].
    cbn [fmap list_fmap system.run system.step]. rewrite runAggregation_New by done.
    rewrite Hch. cbn [fmap option_fmap option_map].
    assert (Hskip : main.select_send_default ch (snapshot rev env cfg) = ch).
    { unfold main.select_send_default, channel.send. rewrite Hcap, Hbuf. done. }
    rewrite Hskip, IH by done.
    cbn [system.sinks system.writer system.started main.httpServer].
    do 3 f_equal. destruct envs as [|env' envs]; [done|].
    rewrite (last_cons_cons env). destruct (main.httpServer (system.sinks st)); done.
Qed.

Lemma ticks_keep_clean_target os st c :
  system.started st = true →
  output.currentConfig (system.writer st) = Some c →
  output.files (system.writer st) !! output.writer_path w = Some (yamlEncode c) →
  ∃ st',
    system.run rev (New cfg) yamlEncode w (system.WriterTick <$> os) st = Some st' ∧
    system.sinks st' = system.sinks st ∧
    output.currentConfig (system.writer st') = Some c ∧
    output.files (system.writer st') !! output.writer_path w = Some (yamlEncode c).
Proof.
  revert st. induction os as [|o os IH]; intros st Hst Hcur Hfile; [by exists st|].
  cbn [fmap list_fmap system.run system.step]. rewrite Hst.
  destruct (IH {| system.sinks := system.sinks st;
                  system.started := true;
                  system.writer :=
                    output.Start_case yamlEncode w (system.writer st) (output.Tick, o) |})
    as (st' & Hrun & Hs & Hc & Hf).
  - done.
  - unfold output.Start_case. simpl. by rewrite Hcur.
  - unfold output.Start_case. simpl. rewrite Hcur. simpl.
    destruct (writeConfig_target yamlEncode w o c (output.files (system.writer st)))
      as [[Ht|Ht] _]; rewrite Ht; done.
  - exists st'. done.
Qed.

(** X24: the file sink gets the oldest snapshot not yet delivered.  From a
    state in which the file writer has started and the channel is empty,
    let an aggregation run, then any number of further aggregations
    before the file writer receives (none of them meeting a nil router),
    then a delivery whose write meets no failure, then any ticks: the
    target file holds the document of the FIRST of those aggregations,
    while the HTTP server holds the snapshot of the last; the channel is
    empty again. *)
Theorem file_gets_oldest_pending_snapshot st ch env envs o os :
  Forall (fun env => Forall (nil_free env (New cfg)) (config.Upstreams cfg))
    (env :: envs) →
  system.started st = true →
  main.fileConfigChan (system.sinks st) = Some ch →
  channel.cap ch = 1%nat →
  channel.buf ch = [] →
  all_succeed o →
  ∃ st',
    system.run rev (New cfg) yamlEncode w
      (system.Cycle env :: (system.Cycle <$> envs)
       ++ system.Deliver o :: (system.WriterTick <$> os)) st
    = Some st' ∧
    output.files (system.writer st') !! output.writer_path w
    = Some (yamlEncode (snapshot rev env cfg)) ∧
    main.fileConfigChan (system.sinks st')
    = Some {| channel.cap := 1; channel.buf := [] |} ∧
    main.httpServer (system.sinks st')
    = (fun srv => output.UpdateConfig srv (snapshot rev (default env (last envs)) cfg))
        <$> main.httpServer (system.sinks st).
Proof.
  intros [Hnf1 Hnf]%Forall_cons Hst Hch Hcap Hbuf Hok.
  cbn [system.run system.step]. rewrite runAggregation_New, Hch by done.
  cbn [fmap option_fmap option_map].
  assert (Hsend : main.select_send_default ch (snapshot rev env cfg)
                  = {| channel.cap := 1; channel.buf := [snapshot rev env cfg] |}).
  { unfold main.select_send_default, channel.send. rewrite Hcap, Hbuf. done. }
  rewrite Hsend, run_app.
  set (st0 := {| system.sinks := _; system.started := _; system.writer := _ |}).
  rewrite (cycles_full_slot envs st0
             {| channel.cap := 1; channel.buf := [snapshot rev env cfg] |}
             (snapshot rev env cfg) Hnf eq_refl eq_refl eq_refl env).
  unfold st0.
  cbn [mbind option_bind system.run system.step system.sinks main.fileConfigChan
       channel.recv channel.buf channel.cap system.writer system.started
       main.httpServer].
  rewrite Hst.
  set (st1 := {| system.sinks := _; system.started := _; system.writer := _ |}).
  destruct (ticks_keep_clean_target os st1 (snapshot rev env cfg))
    as (st' & Hrun & Hs & _ & Hf).
  - done.
  - done.
  - unfold st1, output.Start_case. simpl. rewrite writeConfig_clean by done. simpl.
    by rewrite lookup_insert_eq.
  - exists st'. rewrite Hrun, Hs. split_and!; [done|done|done|].
    unfold st1. simpl. destruct envs as [|env' envs]; [done|].
    destruct (main.httpServer (system.sinks st)); done.
Qed.

End scheduler.

Section scheduler_instances.
Import aggregator props.

(** host1 alone is up at the first aggregation, both hosts at the second;
    in between the file writer starts and receives, on a full disk. *)
Lemma http_serves_latest_snapshot_witness :
  system.initial example.federation ∅ = Some example.start ∧
  system.run ApplyDefaults (New example.federation) example.yamlEncode example.writer
    [system.Cycle example.host2_down; system.WriterStart;
     system.Deliver example.disk_full; system.Cycle example.both_up]
    example.start
  = Some (example.after
            [system.Cycle example.host2_down; system.WriterStart;
             system.Deliver example.disk_full; system.Cycle example.both_up]) ∧
  ∃ srv,
    main.httpServer
      (system.sinks
         (example.after
            [system.Cycle example.host2_down; system.WriterStart;
             system.Deliver example.disk_full; system.Cycle example.both_up]))
    = Some srv ∧
    output.port srv = 8080 ∧
    output.path srv = "/config" ∧
    ∀ r, output.handleConfig srv r
         = if bool_decide (output.Accept r = "application/json" ∨ output.format r = "json")
           then output.serveJSON (snapshot ApplyDefaults example.both_up example.federation)
           else output.serveYAML (snapshot ApplyDefaults example.both_up example.federation).
Proof.
  assert (Hinit : system.initial example.federation ∅ = Some example.start)
    by reflexivity.
  assert (Hrun :
    system.run ApplyDefaults (New example.federation) example.yamlEncode example.writer
      [system.Cycle example.host2_down; system.WriterStart;
       system.Deliver example.disk_full; system.Cycle example.both_up]
      example.start
    = Some (example.after
              [system.Cycle example.host2_down; system.WriterStart;
               system.Deliver example.disk_full; system.Cycle example.both_up]))
    by by_evaluation.
  split; [exact Hinit|]. split; [exact Hrun|].
  exact (http_serves_latest_snapshot ApplyDefaults example.federation example.yamlEncode
           example.writer _ ∅ _ _ eq_refl Hinit Hrun).
Defined.

(** The same run, then a tick on a disk that works again: the file holds
    the document of one of the two snapshots (the first, which the writer
    received). *)
Lemma file_holds_only_snapshots_witness :
  system.initial example.federation ∅ = Some example.start ∧
  system.run ApplyDefaults (New example.federation) example.yamlEncode example.writer
    [system.Cycle example.host2_down; system.WriterStart;
     system.Deliver example.disk_full; system.Cycle example.both_up;
     system.WriterTick example.disk_ok]
    example.start
  = Some (example.after
            [system.Cycle example.host2_down; system.WriterStart;
             system.Deliver example.disk_full; system.Cycle example.both_up;
             system.WriterTick example.disk_ok]) ∧
  output.files
    (system.writer
       (example.after
          [system.Cycle example.host2_down; system.WriterStart;
           system.Deliver example.disk_full; system.Cycle example.both_up;
           system.WriterTick example.disk_ok]))
    !! "/etc/traefik/dynamic/federation.yml"
  = Some (example.yamlEncode
            (snapshot ApplyDefaults example.host2_down example.federation)) ∧
  (output.files
     (system.writer
        (example.after
           [system.Cycle example.host2_down; system.WriterStart;
            system.Deliver example.disk_full; system.Cycle example.both_up;
            system.WriterTick example.disk_ok]))
     !! output.writer_path example.writer
   = (∅ : gmap string string) !! output.writer_path example.writer
   ∨ ∃ c, c ∈ snapshots ApplyDefaults example.federation
                [system.Cycle example.host2_down; system.WriterStart;
                 system.Deliver example.disk_full; system.Cycle example.both_up;
                 system.WriterTick example.disk_ok] ∧
          output.files
            (system.writer
               (example.after
                  [system.Cycle example.host2_down; system.WriterStart;
                   system.Deliver example.disk_full; system.Cycle example.both_up;
                   system.WriterTick example.disk_ok]))
            !! output.writer_path example.writer
          = Some (example.yamlEncode c)).
Proof.
  assert (Hinit : system.initial example.federation ∅ = Some example.start)
    by reflexivity.
  assert (Hrun :
    system.run ApplyDefaults (New example.federation) example.yamlEncode example.writer
      [system.Cycle example.host2_down; system.WriterStart;
       system.Deliver example.disk_full; system.Cycle example.both_up;
       system.WriterTick example.disk_ok]
      example.start
    = Some (example.after
              [system.Cycle example.host2_down; system.WriterStart;
               system.Deliver example.disk_full; system.Cycle example.both_up;
               system.WriterTick example.disk_ok]))
    by by_evaluation.
  split; [exact Hinit|]. split; [exact Hrun|]. split; [by_evaluation|].
  exact (proj1 (file_holds_only_snapshots ApplyDefaults example.federation
                  example.yamlEncode example.writer _ ∅ _ _ Hinit Hrun)).
Defined.

Lemma file_gets_oldest_pending_snapshot_witness :
  ∃ st',
    system.run ApplyDefaults (New example.federation) example.yamlEncode example.writer
      (system.Cycle example.host2_down :: (system.Cycle <$> [example.both_up])
       ++ system.Deliver example.disk_ok :: (system.WriterTick <$> [example.disk_full]))
      (example.after [system.WriterStart])
    = Some st' ∧
    output.files (system.writer st') !! output.writer_path example.writer
    = Some (example.yamlEncode
              (snapshot ApplyDefaults example.host2_down example.federation)) ∧
    main.fileConfigChan (system.sinks st')
    = Some {| channel.cap := 1; channel.buf := [] |} ∧
    main.httpServer (system.sinks st')
    = (fun srv => output.UpdateConfig srv
                    (snapshot ApplyDefaults example.both_up example.federation))
        <$> main.httpServer (system.sinks (example.after [system.WriterStart])).
Proof.
  assert (Hnf : Forall (fun env => Forall (nil_free env (New example.federation))
                                     (config.Upstreams example.federation))
                  [example.host2_down; example.both_up]).
  { repeat constructor; by_decision. }
  exact (file_gets_oldest_pending_snapshot ApplyDefaults example.federation
           example.yamlEncode example.writer (example.after [system.WriterStart])
           (channel.make 1) example.host2_down [example.both_up] example.disk_ok
           [example.disk_full] Hnf eq_refl eq_refl eq_refl eq_refl (fun _ => eq_refl)).
Defined.

End scheduler_instances.

(** ** The order of the upstreams *)

Section order.
Import aggregator props.

Lemma New_clients_Permutation cfg ups' :
  NoDup (config.Name <$> config.Upstreams cfg) →
  ups' ≡ₚ config.Upstreams cfg →
  clients (New (with_upstreams cfg ups')) = clients (New cfg).
Proof.
  intros Hnd Hp. rewrite !New_clients.
  change (config.Upstreams (with_upstreams cfg ups')) with ups'.
  apply list_to_map_proper.
  - rewrite fmap_reverse, <- list_fmap_compose. apply NoDup_reverse.
    change (NoDup (config.Name <$> ups')). by rewrite Hp.
  - by rewrite !reverse_Permutation, Hp.
Qed.

(** With unique upstream names, no two writes to the [Services] map go to
    the same key. *)
Lemma serviceEntries_keys_NoDup env a ups :
  NoDup (config.Name <$> ups) → NoDup (serviceEntries env a ups).*1.
Proof.
  induction ups as [|u ups IH]; [intros _; apply NoDup_nil_2|].
  rewrite fmap_cons, NoDup_cons. intros [Hu Hnd].
  rewrite serviceEntries_cons, fmap_app. case_bool_decide; [|by apply IH].
  simpl. apply NoDup_cons. split; [|by apply IH].
  intros ([k s] & Hk & (u' & Hu' & _ & -> & _)%elem_of_serviceEntries)%list_elem_of_fmap.
  simpl in Hk. apply serviceName_inj in Hk. apply Hu. rewrite Hk.
  by apply list_elem_of_fmap_2.
Qed.

(** X25: the order in which the upstreams are listed does not matter when
    nothing collides: with unique upstream names and pairwise distinct
    published router keys, [Aggregate] over any reordering of the
    upstreams returns the same configuration (and panics when it panics
    in the order given). *)
Theorem Aggregate_order_independent rev env cfg ups' :
  NoDup (config.Name <$> config.Upstreams cfg) →
  NoDup (publishedKeys env (New cfg) (config.Upstreams cfg)) →
  ups' ≡ₚ config.Upstreams cfg →
  Aggregate rev env (New (with_upstreams cfg ups')) = Aggregate rev env (New cfg).
Proof.
  intros Hnd Hkeys Hp.
  assert (Hfetch : ∀ u, u ∈ ups' →
            fetch env (New (with_upstreams cfg ups')) u = fetch env (New cfg) u).
  { intros u _. unfold fetch. by rewrite New_clients_Permutation. }
  assert (Hsame : Forall (nil_free env (New (with_upstreams cfg ups'))) ups'
                  ↔ Forall (nil_free env (New cfg)) (config.Upstreams cfg)).
  { rewrite (nil_free_ext env env (New (with_upstreams cfg ups')) (New cfg) ups' Hfetch).
    by rewrite Hp. }
  destruct (decide (Forall (nil_free env (New cfg)) (config.Upstreams cfg))) as [Hnf|Hnf].
  - rewrite !Aggregate_New by (done || by apply Hsame).
    change (config.Upstreams (with_upstreams cfg ups')) with ups'.
    destruct (entries_ext rev env env (New (with_upstreams cfg ups')) (New cfg) ups')
      as [-> ->]; [done|done|].
    do 3 f_equal.
    + apply list_to_map_proper.
      * rewrite fmap_reverse, routerEntries_keys. apply NoDup_reverse.
        unfold publishedKeys in *. by rewrite Hp.
      * rewrite !reverse_Permutation. unfold routerEntries. by rewrite Hp.
    + apply list_to_map_proper.
      * rewrite fmap_reverse. apply NoDup_reverse, serviceEntries_keys_NoDup.
        by rewrite Hp.
      * rewrite !reverse_Permutation. unfold serviceEntries. by rewrite Hp.
  - rewrite !Aggregate_New_panics; [done|done|].
    intros Hnf'. by apply Hnf, Hsame.
Qed.

Lemma Aggregate_order_independent_witness :
  Aggregate ApplyDefaults example.both_up
    (New (with_upstreams example.federation [example.host2; example.host1]))
  = Aggregate ApplyDefaults example.both_up (New example.federation).
Proof.
  apply (Aggregate_order_independent ApplyDefaults example.both_up example.federation
           [example.host2; example.host1]).
  - by_decision.
  - by_decision.
  - apply perm_swap.
Defined.

End order.

(** ** The version string *)

Section version_string.
Import GoStrings.

Lemma Index_unfold (s substr : string) :
  Index s substr
  = if HasPrefix s substr then 0
    else match s with
         | EmptyString => -1
         | String _ s' =>
             if bool_decide (Index s' substr = -1) then -1 else Index s' substr + 1
         end.
Proof. by destruct s. Qed.

Lemma HasPrefix_app (s t : string) : HasPrefix (s +:+ t) s = true.
Proof.
  unfold HasPrefix. induction s as [|c s IH]; [apply prefix_nil|].
  simpl. by destruct (ascii_dec c c).
Qed.

Lemma Contains_app_l (s t : string) : Contains (s +:+ t) s = true.
Proof.
  unfold Contains. rewrite Index_unfold, HasPrefix_app. done.
Qed.

Lemma Contains_app_r (s t substr : string) :
  Contains t substr = true → Contains (s +:+ t) substr = true.
Proof.
  unfold Contains. rewrite !bool_decide_eq_true. intros Ht.
  induction s as [|c s IH]; [done|].
  change (String c s +:+ t) with (String c (s +:+ t)). rewrite Index_cons.
  destruct (HasPrefix _ _); [done|]. case_bool_decide; lia.
Qed.

Lemma Contains_self (s : string) : Contains s s = true.
Proof.
  unfold Contains. rewrite Index_unfold.
  assert (HasPrefix s s = true) as ->; [|done].
  unfold HasPrefix. induction s as [|c s IH]; [done|].
  simpl. by destruct (ascii_dec c c).
Qed.

(** A string contains each part it is joined from. *)
Lemma Contains_part (s part t : string) : Contains (s +:+ part +:+ t) part = true.
Proof. apply Contains_app_r, Contains_app_l. Qed.

(** X26: the version line names the program and shows every field of the
    [Info] it is made of, whatever the fields are; and the platform [Get]
    reports contains the operating system and the architecture.  (The
    package's tests assert these for one [Info] and for the running
    platform.) *)
Theorem String_shows_every_field (i : version.Info)
    (v commit date goVersion goos goarch : string) :
  Contains (version.String i) "traefik-fed" = true ∧
  Contains (version.String i) (version.Version i) = true ∧
  Contains (version.String i) (version.GitCommit i) = true ∧
  Contains (version.String i) (version.BuildDate i) = true ∧
  Contains (version.String i) (version.GoVersion i) = true ∧
  Contains (version.String i) (version.Platform i) = true ∧
  Contains (version.Platform (version.Get v commit date goVersion goos goarch)) goos
  = true ∧
  Contains (version.Platform (version.Get v commit date goVersion goos goarch)) goarch
  = true.
Proof.
  unfold version.String, version.Get. cbn [version.Platform]. split_and!.
  - apply (Contains_part "" "traefik-fed").
  - apply (Contains_part "traefik-fed ").
  - do 2 apply Contains_app_r. apply (Contains_part " (").
  - do 4 apply Contains_app_r. apply (Contains_part ") built on ").
  - do 6 apply Contains_app_r. apply (Contains_part " with ").
  - do 9 apply Contains_app_r. apply Contains_self.
  - apply Contains_app_l.
  - do 2 apply Contains_app_r. apply Contains_self.
Qed.

End version_string.

(** ** The panics of the program *)

Section panics.
Import aggregator props.

(** X27: [Aggregate], on an aggregator built by [New], panics exactly
    when some configured upstream answers its fetch with a list that
    holds a nil router (a [null] in the JSON array), whatever the other
    upstreams answer; when it returns, it returns no error. *)
Theorem Aggregate_panics_iff_nil_router rev env cfg :
  (Aggregate rev env (New cfg) = None ↔
   ∃ u routers, u ∈ config.Upstreams cfg ∧
                fetch env (New cfg) u = Some (inl routers) ∧ None ∈ routers) ∧
  (∀ out err, Aggregate rev env (New cfg) = Some (out, err) → err = None).
Proof.
  split; [split|].
  - intros Hpanic.
    destruct (decide (Forall (nil_free env (New cfg)) (config.Upstreams cfg))) as [Hnf|Hnf].
    { by rewrite Aggregate_New in Hpanic. }
    apply not_Forall_Exists in Hnf; [|apply _].
    apply Exists_exists in Hnf as (u & Hu & Hnil). exists u.
    revert Hnil. unfold compose, nil_free. cbv beta.
    destruct (fetch env (New cfg) u) as [[routers|err]|]; intros Hnil;
      [|destruct Hnil; exact I|destruct Hnil; exact I].
    exists routers. split_and!; [done|done|]. by apply dec_stable.
  - intros (u & routers & Hu & Hf & Hnil). apply Aggregate_New_panics.
    intros Hnf. apply (proj1 (Forall_forall _ _) Hnf u) in Hu.
    unfold nil_free in Hu. rewrite Hf in Hu. done.
  - by intros out err (_ & _ & ->)%Aggregate_New_inv.
Qed.

(** X28: [Validate] checks no interval: a configuration stays as valid
    as it is with any poll interval and any file interval.  With a poll
    interval that is not
    positive, [main] panics when it creates its ticker, before the first
    aggregation; with a positive one and a file output enabled with an
    interval that is not positive, the file writer panics when it starts. *)
Theorem intervals_unchecked c poll interval files0 rev yamlEncode :
  config.Validate (with_intervals c poll interval) = config.Validate c ∧
  (poll ≤ 0 → system.initial (with_intervals c poll interval) files0 = None) ∧
  (0 < poll → interval ≤ 0 →
   config.File_Enabled (config.File (config.Output c)) = true →
   ∃ st0,
     system.initial (with_intervals c poll interval) files0 = Some st0 ∧
     system.step rev (New (with_intervals c poll interval)) yamlEncode
       (output.NewFileWriter (config.File_Path (config.File (config.Output c))) interval)
       st0 system.WriterStart
     = None).
Proof.
  split_and!.
  - done.
  - intros Hpoll. unfold system.initial, GoTime.NewTicker. simpl.
    by rewrite bool_decide_true.
  - intros Hpoll Hinterval Hfile. unfold system.initial, GoTime.NewTicker. simpl.
    rewrite bool_decide_false by lia. eexists. split; [done|].
    unfold system.step, main.setup, GoTime.NewTicker. simpl. rewrite Hfile. simpl.
    by rewrite bool_decide_true.
Qed.

(** [federation] with a poll interval of -1s passes [Validate] and
    panics at once; with a file interval of -5s it passes too, and
    panics when the file writer starts. *)
Lemma intervals_unchecked_witness :
  config.Validate (with_intervals example.federation (- traefik.Second)
                     (-5 * traefik.Second)) = None ∧
  system.initial (with_intervals example.federation (- traefik.Second)
                    (-5 * traefik.Second)) ∅ = None ∧
  ∃ st0,
    system.initial (with_intervals example.federation (10 * traefik.Second)
                      (-5 * traefik.Second)) ∅ = Some st0 ∧
    system.step ApplyDefaults
      (New (with_intervals example.federation (10 * traefik.Second)
              (-5 * traefik.Second)))
      example.yamlEncode
      (output.NewFileWriter "/etc/traefik/dynamic/federation.yml" (-5 * traefik.Second))
      st0 system.WriterStart
    = None.
Proof.
  split; [reflexivity|]. split.
  - apply (intervals_unchecked example.federation (- traefik.Second)
             (-5 * traefik.Second) ∅ ApplyDefaults example.yamlEncode).
    vm_compute. discriminate.
  - apply (intervals_unchecked example.federation (10 * traefik.Second)
             (-5 * traefik.Second) ∅ ApplyDefaults example.yamlEncode).
    + reflexivity.
    + vm_compute. discriminate.
    + reflexivity.
Defined.

End panics.
